(** * String Analyzer Service: a shallow embedding of [index.js]

    The server keeps analysed strings in a [Map] keyed by their SHA-256
    digest.  This development embeds the property computation, the store,
    the filter engine, the natural-language interpreter and the route
    table, and proves the properties the specification states about them.

    JavaScript strings are sequences of UTF-16 code units; the built-ins the
    program calls ([trim], [split], [includes], [match], the string
    iterator, [parseInt], [Map]) are modelled in the first part.  Numbers
    are the integral doubles, with the rounding of [parseInt] and of [+]
    beyond 2^53.  Two built-ins are taken as parameters of the program:
    [toLowerCase] (the full Unicode case mapping) and the SHA-256 hex
    digest. *)

From stdpp Require Import gmap list strings relations.
From Stdlib Require Import ZArith Lia Ascii.

Local Open Scope Z_scope.

(** ** JavaScript strings *)

(** A string is its list of UTF-16 code units. *)
Abbreviation jsstring := (list N).

(** The code units of an ASCII literal. *)
Fixpoint js (s : string) : jsstring :=
  match s with
  | EmptyString => []
  | String a s' => Ascii.N_of_ascii a :: js s'
  end.

Module JSString.

(** [WhiteSpace] and [LineTerminator] of ECMAScript: what [trim] strips
    and what the class [\s] matches. *)
Definition isWhiteSpace (c : N) : bool :=
  existsb (N.eqb c)
    [9; 10; 11; 12; 13; 32; 160; 5760; 8232; 8233; 8239; 8287; 12288; 65279]%N
  || ((8192 <=? c)%N && (c <=? 8202)%N).

(** The class [\d] (without the unicode flag): the ten ASCII digits. *)
Definition isDigit (c : N) : bool := (48 <=? c)%N && (c <=? 57)%N.

(** The class [[a-z]]. *)
Definition isLowerLetter (c : N) : bool := (97 <=? c)%N && (c <=? 122)%N.

Definition isAscii (c : N) : bool := (c <? 128)%N.

(** Lower-casing of one ASCII code unit. *)
Definition lowerUnit (c : N) : N :=
  if (65 <=? c)%N && (c <=? 90)%N then (c + 32)%N else c.

Fixpoint dropWhile (p : N → bool) (s : jsstring) : jsstring :=
  match s with
  | [] => []
  | c :: s' => if p c then dropWhile p s' else s
  end.

Fixpoint takeWhile (p : N → bool) (s : jsstring) : jsstring :=
  match s with
  | [] => []
  | c :: s' => if p c then c :: takeWhile p s' else []
  end.

Definition trimStart (s : jsstring) : jsstring := dropWhile isWhiteSpace s.
Definition trimEnd (s : jsstring) : jsstring := rev (dropWhile isWhiteSpace (rev s)).

(** [s.trim()] *)
Definition trim (s : jsstring) : jsstring := trimEnd (trimStart s).

(** [s.split(/\s+/)].  The scan keeps the code units of the substring
    being built in [cur]; [sep] tells that the previous code unit was
    consumed by the (greedy) separator match, which then also consumes
    the white space that follows.  A separator at the very start leaves an
    empty first substring, one at the very end an empty last substring,
    and the empty string splits into one empty substring. *)
Fixpoint splitLoop (sep : bool) (cur : jsstring) (s : jsstring) : list jsstring :=
  match s with
  | [] => [cur]
  | c :: s' =>
      if isWhiteSpace c
      then if sep then splitLoop true cur s'
           else cur :: splitLoop true [] s'
      else splitLoop false (cur ++ [c]) s'
  end.

Definition splitWhiteSpace (s : jsstring) : list jsstring := splitLoop false [] s.

(** [s.split("")]: one string per code unit. *)
Definition splitUnits (s : jsstring) : list jsstring := map (λ c, [c]) s.

(** [a.join("")] *)
Definition joinEmpty (a : list jsstring) : jsstring := concat a.

(** The sticky test [s.startsWith(p)]. *)
Fixpoint startsWith (p s : jsstring) : bool :=
  match p, s with
  | [], _ => true
  | _ :: _, [] => false
  | a :: p', b :: s' => (a =? b)%N && startsWith p' s'
  end.

(** What follows the prefix [p] in [s], when [s] starts with [p]. *)
Fixpoint afterPrefix (p s : jsstring) : option jsstring :=
  match p, s with
  | [], _ => Some s
  | _ :: _, [] => None
  | a :: p', b :: s' => if (a =? b)%N then afterPrefix p' s' else None
  end.

(** [s.includes(p)]: [p] starts at some index of [s]. *)
Fixpoint includes (s p : jsstring) : bool :=
  startsWith p s ||
  match s with
  | [] => false
  | _ :: s' => includes s' p
  end.

(** A regular expression search without the sticky flag: the match
    attempt [m] is made at index 0, 1, ... and the first success wins. *)
Fixpoint search {A} (m : jsstring → option A) (s : jsstring) : option A :=
  match m s with
  | Some a => Some a
  | None => match s with
            | [] => None
            | _ :: s' => search m s'
            end
  end.

Definition isHighSurrogate (c : N) : bool := (55296 <=? c)%N && (c <=? 56319)%N.
Definition isLowSurrogate (c : N) : bool := (56320 <=? c)%N && (c <=? 57343)%N.

(** The string iterator ([for (const char of s)]): one string per code
    point, a surrogate pair being one code point of two code units. *)
Fixpoint codePoints (s : jsstring) : list jsstring :=
  match s with
  | [] => []
  | c :: s' =>
      match s' with
      | d :: s'' =>
          if isHighSurrogate c && isLowSurrogate d
          then [c; d] :: codePoints s''
          else [c] :: codePoints s'
      | [] => [[c]]
      end
  end.

End JSString.

(** ** JavaScript numbers *)

(** The numbers the program handles are non-negative integral doubles and
    [Infinity] (which [parseInt] returns on a long enough digit string). *)
Inductive number :=
  | Num (z : Z)
  | Infinity.

Global Instance number_eq_dec : EqDecision number.
Proof. solve_decision. Defined.

Module JSNumber.

(** The double nearest to the non-negative integer [z], ties to even. *)
Definition roundDouble (z : Z) : number :=
  if z <? 2 ^ 53 then Num z
  else
    let e := Z.log2 z - 52 in
    let q := z / 2 ^ e in
    let r := z mod 2 ^ e in
    let half := 2 ^ (e - 1) in
    let q' := if r <? half then q
              else if half <? r then q + 1
              else if Z.even q then q else q + 1 in
    if q' * 2 ^ e <? 2 ^ 1024 then Num (q' * 2 ^ e) else Infinity.

(** [a < b] *)
Definition ltb (a b : number) : bool :=
  match a, b with
  | Num x, Num y => x <? y
  | Num _, Infinity => true
  | Infinity, _ => false
  end.

(** [a === b] *)
Definition eqb (a b : number) : bool := bool_decide (a = b).

(** [a + 1] *)
Definition succ (a : number) : number :=
  match a with
  | Num z => roundDouble (z + 1)
  | Infinity => Infinity
  end.

(** Truthiness: every number but 0 (and NaN, which is not in the type). *)
Definition truthy (a : number) : bool := negb (eqb a (Num 0)).

Definition digitValue (c : N) : Z := Z.of_N c - 48.

(** The mathematical value of a string of decimal digits. *)
Definition digitsValue (ds : jsstring) : Z :=
  fold_left (λ acc c, 10 * acc + digitValue c) ds 0.

(** [parseInt(s, 10)] on a string that starts with a digit: the value of
    the leading digits as a double.  (The program passes it captures of
    [\d+] only, so the white space, sign and NaN cases do not arise.) *)
Definition parseInt (s : jsstring) : number :=
  roundDouble (digitsValue (JSString.takeWhile JSString.isDigit s)).

End JSNumber.

(** ** The built-in [Map] *)

(** A [Map] with string keys keeps its entries in insertion order, which is
    the order [values()] iterates in. *)
Module JSMap.
Section Ops.
Context {V : Type}.

Fixpoint get (k : jsstring) (m : list (jsstring * V)) : option V :=
  match m with
  | [] => None
  | (k', v) :: m' => if bool_decide (k' = k) then Some v else get k m'
  end.

Definition has (k : jsstring) (m : list (jsstring * V)) : bool :=
  match get k m with
  | Some _ => true
  | None => false
  end.

(** [m.set(k, v)]: an existing key keeps its place, a new one goes last. *)
Fixpoint set (k : jsstring) (v : V) (m : list (jsstring * V)) : list (jsstring * V) :=
  match m with
  | [] => [(k, v)]
  | (k', v') :: m' =>
      if bool_decide (k' = k) then (k, v) :: m' else (k', v') :: set k v m'
  end.

(** [m.delete(k)]: the map without the entry of [k]; the call returns
    [has k m]. *)
Fixpoint delete (k : jsstring) (m : list (jsstring * V)) : list (jsstring * V) :=
  match m with
  | [] => []
  | (k', v') :: m' =>
      if bool_decide (k' = k) then m' else (k', v') :: delete k m'
  end.

Definition keys (m : list (jsstring * V)) : list jsstring := m.*1.
Definition values (m : list (jsstring * V)) : list V := m.*2.
Definition size (m : list (jsstring * V)) : Z := Z.of_nat (length m).
End Ops.
End JSMap.

(** [Object.fromEntries(entries)]: the object is used as a map from keys to
    values (the order of its own keys is not observed); a later entry
    overwrites an earlier one with the same key. *)
Definition fromEntries {V} (entries : list (jsstring * V)) : gmap jsstring V :=
  fold_left (λ o e, <[e.1 := e.2]> o) entries ∅.

(** ** Data model *)

(** The object [computeProperties] returns. *)
Module Props.
Record t := mk {
  length : Z;
  is_palindrome : bool;
  unique_characters : Z;
  word_count : Z;
  sha256_hash : jsstring;
  character_frequency_map : gmap jsstring Z;
}.
End Props.

(** The object [create] stores. *)
Module Stored.
Record t := mk {
  id : jsstring;
  value : jsstring;
  properties : Props.t;
  created_at : jsstring;
}.
End Stored.

(** A filter set: a filter that is absent is [undefined] in the object. *)
Module Filters.
Record t := mk {
  is_palindrome : option bool;
  min_length : option number;
  max_length : option number;
  word_count : option number;
  contains_character : option jsstring;
}.

(** [{}] *)
Definition empty : t := mk None None None None None.

Definition set_is_palindrome (b : bool) (f : t) : t :=
  mk (Some b) (min_length f) (max_length f) (word_count f) (contains_character f).
Definition set_min_length (n : number) (f : t) : t :=
  mk (is_palindrome f) (Some n) (max_length f) (word_count f) (contains_character f).
Definition set_word_count (n : number) (f : t) : t :=
  mk (is_palindrome f) (min_length f) (max_length f) (Some n) (contains_character f).
Definition set_contains_character (c : jsstring) (f : t) : t :=
  mk (is_palindrome f) (min_length f) (max_length f) (word_count f) (Some c).

Definition present {A} (o : option A) : nat :=
  match o with
  | Some _ => 1%nat
  | None => 0%nat
  end.

(** [Object.keys(f).length] *)
Definition keysLength (f : t) : nat :=
  (present (is_palindrome f) + present (min_length f) + present (max_length f)
   + present (word_count f) + present (contains_character f))%nat.
End Filters.

Global Instance props_eq_dec : EqDecision Props.t.
Proof. solve_decision. Defined.
Global Instance stored_eq_dec : EqDecision Stored.t.
Proof. solve_decision. Defined.
Global Instance filters_eq_dec : EqDecision Filters.t.
Proof. solve_decision. Defined.

(** A thrown [Error] with its message. *)
Inductive exn := Error (message : string).

(** What [list] returns. *)
Record listing := Listing {
  data : list Stored.t;
  count : Z;
  filters_applied : Filters.t;
}.

(** ** class Storage *)

Module Storage.

(** The object state: the field [strings]. *)
Record t := mk { strings : list (jsstring * Stored.t) }.

(** [constructor()] *)
Definition new : t := mk [].

Section Methods.
(** [String.prototype.toLowerCase] *)
Variable toLowerCase : jsstring → jsstring.
(** [crypto.createHash("sha256").update(value).digest("hex")] *)
Variable sha256 : jsstring → jsstring.

(** The loop that fills the map [freq]:
    [freq.set(char, (freq.get(char) || 0) + 1)] for every code point. *)
Definition countChar (freq : list (jsstring * Z)) (char : jsstring) : list (jsstring * Z) :=
  JSMap.set char (default 0 (JSMap.get char freq) + 1) freq.

Definition charFrequencies (value : jsstring) : list (jsstring * Z) :=
  fold_left countChar (JSString.codePoints value) [].

Definition computeProperties (value : jsstring) : Props.t :=
  let lower := toLowerCase value in
  let hash := sha256 value in
  let freq := charFrequencies value in
  let unique := JSMap.size freq in
  let wordCount :=
    Z.of_nat (length (JSString.splitWhiteSpace (JSString.trim value))) in
  let reversed :=
    toLowerCase (JSString.joinEmpty (rev (JSString.splitUnits value))) in
  let isPal := bool_decide (lower = reversed) in
  {| Props.length := Z.of_nat (length value);
     Props.is_palindrome := isPal;
     Props.unique_characters := unique;
     Props.word_count := wordCount;
     Props.sha256_hash := hash;
     Props.character_frequency_map := fromEntries freq |}.

(** [create(value)]; [now] is what [new Date().toISOString()] reads from
    the clock.  The result is the state after the call with either the
    thrown error or the returned object. *)
Definition create (value now : jsstring) (this : t) : t * (exn + Stored.t) :=
  let props := computeProperties value in
  if JSMap.has (Props.sha256_hash props) (strings this)
  then (this, inl (Error "String already exists"))
  else
    let stored :=
      {| Stored.id := Props.sha256_hash props;
         Stored.value := value;
         Stored.properties := props;
         Stored.created_at := now |} in
    (mk (JSMap.set (Props.sha256_hash props) stored (strings this)), inr stored).

(** [get(hash)]: [None] is [undefined]. *)
Definition get (hash : jsstring) (this : t) : option Stored.t :=
  JSMap.get hash (strings this).

(** [delete(hash)] *)
Definition delete (hash : jsstring) (this : t) : t * bool :=
  (mk (JSMap.delete hash (strings this)), JSMap.has hash (strings this)).

(** The body of the loop of [list]: the flag [match] after the five
    tests, each of which can only clear it. *)
Definition matchFlag (filters : Filters.t) (stored : Stored.t) : bool :=
  let p := Stored.properties stored in
  let m := true in
  let m :=
    match Filters.is_palindrome filters with
    | Some b => if negb (Bool.eqb (Props.is_palindrome p) b) then false else m
    | None => m
    end in
  let m :=
    match Filters.min_length filters with
    | Some n => if JSNumber.ltb (Num (Props.length p)) n then false else m
    | None => m
    end in
  let m :=
    match Filters.max_length filters with
    | Some n => if JSNumber.ltb n (Num (Props.length p)) then false else m
    | None => m
    end in
  let m :=
    match Filters.word_count filters with
    | Some n => if negb (JSNumber.eqb (Num (Props.word_count p)) n) then false else m
    | None => m
    end in
  let m :=
    match Filters.contains_character filters with
    | Some c =>
        let hasChar :=
          bool_decide (c ∈ (map_to_list (Props.character_frequency_map p)).*1) in
        if negb hasChar then false else m
    | None => m
    end in
  m.

(** [list(filters)] *)
Definition list (filters : Filters.t) (this : t) : listing :=
  let results :=
    fold_left
      (λ results stored,
         if matchFlag filters stored then results ++ [stored] else results)
      (JSMap.values (strings this)) [] in
  {| data := results;
     count := Z.of_nat (length results);
     filters_applied := filters |}.
End Methods.
End Storage.

(** ** parseNaturalQuery *)

Module Interpreter.

(** One alternative of [/longer than (\d+)|more than (\d+)/] attempted at
    the start of [s]: the keyword, then the longest run of digits, which
    must not be empty; the result is the capture. *)
Definition keywordDigits (keyword : string) (s : jsstring) : option jsstring :=
  match JSString.afterPrefix (js keyword) s with
  | Some rest =>
      match JSString.takeWhile JSString.isDigit rest with
      | [] => None
      | ds => Some ds
      end
  | None => None
  end.

(** [/longer than (\d+)|more than (\d+)/] attempted at the start of [s]:
    [inl] is capture 1 (capture 2 is then undefined), [inr] is capture 2
    (capture 1 is then undefined). *)
Definition lengthPattern (s : jsstring) : option (jsstring + jsstring) :=
  match keywordDigits "longer than " s with
  | Some ds => Some (inl ds)
  | None =>
      match keywordDigits "more than " s with
      | Some ds => Some (inr ds)
      | None => None
      end
  end.

(** [/letter ([a-z])/] attempted at the start of [s]: the capture. *)
Definition letterPattern (s : jsstring) : option jsstring :=
  match JSString.afterPrefix (js "letter ") s with
  | Some (c :: _) => if JSString.isLowerLetter c then Some [c] else None
  | _ => None
  end.

(** [lengthMatch[1] || lengthMatch[2]]: a capture that took part in the
    match is a non-empty string, hence truthy. *)
Definition firstCapture (m : jsstring + jsstring) : jsstring :=
  match m with
  | inl ds => ds
  | inr ds => ds
  end.

(** The rules, in the order of the source, on the lower-cased query. *)
Definition applyRules (lowerQuery : jsstring) : Filters.t :=
  let filters := Filters.empty in
  let filters :=
    if JSString.includes lowerQuery (js "palindromic")
       || JSString.includes lowerQuery (js "palindrome")
    then Filters.set_is_palindrome true filters else filters in
  let filters :=
    if JSString.includes lowerQuery (js "single word")
       || JSString.includes lowerQuery (js "one word")
    then Filters.set_word_count (Num 1) filters else filters in
  let filters :=
    match JSString.search lengthPattern lowerQuery with
    | Some lengthMatch =>
        let num := JSNumber.parseInt (firstCapture lengthMatch) in
        Filters.set_min_length (JSNumber.succ num) filters
    | None => filters
    end in
  let filters :=
    match JSString.search letterPattern lowerQuery with
    | Some charMatch => Filters.set_contains_character charMatch filters
    | None => filters
    end in
  let filters :=
    if JSString.includes lowerQuery (js "vowel")
    then Filters.set_contains_character (js "a") filters else filters in
  let filters :=
    if JSString.includes lowerQuery (js "z")
    then Filters.set_contains_character (js "z") filters else filters in
  filters.

(** [filters.min_length && filters.max_length &&
     filters.min_length > filters.max_length] *)
Definition conflicting (filters : Filters.t) : bool :=
  match Filters.min_length filters, Filters.max_length filters with
  | Some lo, Some hi => JSNumber.truthy lo && JSNumber.truthy hi && JSNumber.ltb hi lo
  | _, _ => false
  end.

(** What follows the rules: [null] for an empty filter set, the error for
    contradictory bounds, the filter set otherwise. *)
Definition finish (filters : Filters.t) : exn + option Filters.t :=
  if (Filters.keysLength filters =? 0)%nat then inr None
  else if conflicting filters then inl (Error "Conflicting filters")
  else inr (Some filters).

Section WithRuntime.
Variable toLowerCase : jsstring → jsstring.

(** [parseNaturalQuery(query)]: the thrown error, or the returned value
    with [None] for [null]. *)
Definition parseNaturalQuery (query : jsstring) : exn + option Filters.t :=
  let lowerQuery := toLowerCase query in
  finish (applyRules lowerQuery).
End WithRuntime.
End Interpreter.

(** ** Routes and handlers *)

(** The method of a request.  [OTHER] is any method but the four named:
    no route is registered for one, and an OPTIONS request is answered by
    the [cors] middleware before the routes are tried. *)
Inductive method := GET | POST | DELETE | HEAD | OTHER.

Global Instance method_eq_dec : EqDecision method.
Proof. solve_decision. Defined.

(** A segment of a route path: a literal or a named parameter. *)
Inductive segment :=
  | Lit (s : string)
  | Param (name : string).

(** The five handlers, named after their routes. *)
Inductive handler :=
  | postStrings
  | getStringsValue
  | getStrings
  | getStringsFilterByNaturalLanguage
  | deleteStringsValue.

(** A request: the method, the segments of the path between the slashes and
    the parsed query string.  A trailing slash leaves an empty last
    segment.  Paths are taken without percent-escapes, so that a segment
    is its own decoding. *)
Record request := Request {
  req_method : method;
  req_path : list jsstring;
  req_query : list (jsstring * jsstring);
}.

(** The JSON bodies of the responses of the two handlers embedded below:
    an error, a stored record, and a listing with the interpreted query. *)
Inductive body :=
  | JsonError (error : string)
  | JsonStored (stored : Stored.t)
  | JsonInterpreted (result : listing) (original : jsstring) (parsed_filters : Filters.t).

Record response := Response {
  status : Z;
  res_body : body;
}.

(** The value of a query parameter: a string, or an array or object, which
    a repeated or bracketed parameter gives; such a value is truthy and has
    no method [toLowerCase]. *)
Inductive queryValue :=
  | QueryString (s : jsstring)
  | QueryOther.

Module Router.

(** The routes in the order the source registers them with [app.post],
    [app.get] and [app.delete]. *)
Definition routes : list (method * list segment * handler) :=
  [ (POST, [Lit "strings"], postStrings);
    (GET, [Lit "strings"; Param "value"], getStringsValue);
    (GET, [Lit "strings"], getStrings);
    (GET, [Lit "strings"; Lit "filter-by-natural-language"],
      getStringsFilterByNaturalLanguage);
    (DELETE, [Lit "strings"; Param "value"], deleteStringsValue) ].

(** Express matches a literal segment without regard to ASCII case and a
    parameter against any non-empty segment, and lets one slash follow the
    last segment (the routing is neither case sensitive nor strict); the
    result is [req.params]. *)
Fixpoint matchPath (pattern : list segment) (path : list jsstring)
  : option (list (string * jsstring)) :=
  match pattern, path with
  | [], [] => Some []
  | [], [[]] => Some []
  | Lit s :: pattern', seg :: path' =>
      if bool_decide (map JSString.lowerUnit seg = map JSString.lowerUnit (js s))
      then matchPath pattern' path' else None
  | Param name :: pattern', seg :: path' =>
      if bool_decide (seg = []) then None
      else match matchPath pattern' path' with
           | Some params => Some ((name, seg) :: params)
           | None => None
           end
  | _, _ => None
  end.

(** A route handles the requests of the method it is registered for, and a
    route registered with [app.get] those of method HEAD too, the program
    registering none for HEAD. *)
Definition handles (m requested : method) : bool :=
  bool_decide (m = requested)
  || (bool_decide (m = GET) && bool_decide (requested = HEAD)).

(** The first registered route whose method and path match handles the
    request: no handler of the program calls [next].  The result is the
    handler with [req.params]. *)
Fixpoint dispatch (rs : list (method * list segment * handler)) (req : request)
  : option (handler * list (string * jsstring)) :=
  match rs with
  | [] => None
  | (m, pattern, h) :: rs' =>
      if handles m (req_method req)
      then match matchPath pattern (req_path req) with
           | Some params => Some (h, params)
           | None => dispatch rs' req
           end
      else dispatch rs' req
  end.

Section Handlers.
Variable toLowerCase : jsstring → jsstring.
Variable sha256 : jsstring → jsstring.

(** The handler of [GET /strings/:value]. *)
Definition getStringsValueHandler (value : jsstring) (storage : Storage.t) : response :=
  let props := Storage.computeProperties toLowerCase sha256 value in
  match Storage.get (Props.sha256_hash props) storage with
  | None => Response 404 (JsonError "String does not exist in the system")
  | Some stored => Response 200 (JsonStored stored)
  end.

(** The handler of [GET /strings/filter-by-natural-language]; [query] is
    [req.query.query], [None] when the parameter is missing.  On a value
    that is not a string the call [query.toLowerCase()] throws a TypeError
    inside the [try], which the [catch] answers as it answers every
    error. *)
Definition getStringsFilterByNaturalLanguageHandler
    (query : option queryValue) (storage : Storage.t) : response :=
  match query with
  | None | Some (QueryString []) =>
      Response 400 (JsonError "Unable to parse natural language query")
  | Some QueryOther =>
      Response 422 (JsonError "Query parsed but resulted in conflicting filters")
  | Some (QueryString query) =>
      match Interpreter.parseNaturalQuery toLowerCase query with
      | inl _ =>
          Response 422 (JsonError "Query parsed but resulted in conflicting filters")
      | inr None =>
          Response 400 (JsonError "Unable to parse natural language query")
      | inr (Some parsed) =>
          let result := Storage.list parsed storage in
          Response 200 (JsonInterpreted result query parsed)
      end
  end.
End Handlers.
End Router.

(** ** Reachable stores *)

Section Reachability.
Variable toLowerCase : jsstring → jsstring.
Variable sha256 : jsstring → jsstring.

(** One call of a mutating method of the store, whatever its outcome. *)
Inductive step : Storage.t → Storage.t → Prop :=
  | step_create value now st :
      step st (Storage.create toLowerCase sha256 value now st).1
  | step_delete hash st :
      step st (Storage.delete hash st).1.

(** The states the store can be in: those a sequence of [create] and
    [delete] calls leads to from the store the constructor builds. *)
Definition reachable (st : Storage.t) : Prop := rtc step Storage.new st.
End Reachability.

(** ** The vocabulary of the specification *)

(** What is known of [toLowerCase] without its Unicode tables: on a string
    of ASCII code units it lower-cases the letters A to Z, unit by unit. *)
Definition lowersAscii (toLowerCase : jsstring → jsstring) : Prop :=
  ∀ s, forallb JSString.isAscii s = true → toLowerCase s = map JSString.lowerUnit s.

(** The instance of [toLowerCase] used to run the program on ASCII text. *)
Definition asciiLowerCase (s : jsstring) : jsstring := map JSString.lowerUnit s.

(** The digest of a record. *)
Definition digest (stored : Stored.t) : jsstring :=
  Props.sha256_hash (Stored.properties stored).

(** An entry of the store is keyed by the [id] of its record, which is the
    digest in the record's properties. *)
Definition keyed (entry : jsstring * Stored.t) : Prop :=
  Stored.id entry.2 = Props.sha256_hash (Stored.properties entry.2)
  ∧ entry.1 = Stored.id entry.2.

(** A string of white space, and a string without any. *)
Abbreviation blank := (Forall (λ c, JSString.isWhiteSpace c = true)).
Abbreviation solid := (Forall (λ c, JSString.isWhiteSpace c = false)).

(** Tokens separated by white space: [interleaved s toks] when [s] is the
    tokens [toks], each non-empty and free of white space, with a non-empty
    run of white space between two neighbours and none around. *)
Inductive interleaved : jsstring → list jsstring → Prop :=
  | interleaved_one tok :
      tok ≠ [] → solid tok → interleaved tok [tok]
  | interleaved_cons tok gap s toks :
      tok ≠ [] → solid tok →
      gap ≠ [] → blank gap →
      interleaved s toks →
      interleaved (tok ++ gap ++ s) (tok :: toks).

(** [value] holds the tokens [toks], with any white space before the first
    and after the last. *)
Definition tokenized (value : jsstring) (toks : list jsstring) : Prop :=
  ∃ before s after,
    value = before ++ s ++ after ∧ blank before ∧ blank after ∧ interleaved s toks.

(** How many times [char] occurs in [chars]. *)
Definition occurrences (char : jsstring) (chars : list jsstring) : nat :=
  length (filter (λ c, c = char) chars).

(** How many times the code unit [c] occurs in [value]. *)
Definition unitOccurrences (c : N) (value : jsstring) : nat :=
  length (filter (λ u, u = c) value).

(** [value] holds a surrogate pair: a high surrogate with a low surrogate
    right after it. *)
Fixpoint hasSurrogatePair (value : jsstring) : bool :=
  match value with
  | [] => false
  | c :: value' =>
      match value' with
      | d :: _ =>
          (JSString.isHighSurrogate c && JSString.isLowSurrogate d)
          || hasSurrogatePair value'
      | [] => false
      end
  end.

(** [a <= b] on numbers. *)
Definition numLe (a b : number) : Prop :=
  match a, b with
  | Num x, Num y => x ≤ y
  | _, Infinity => True
  | Infinity, Num _ => False
  end.

Global Instance numLe_dec a b : Decision (numLe a b).
Proof. destruct a, b; simpl; apply _. Defined.

(** A filter that is present constrains the record, an absent one does not. *)
Definition whenPresent {A} (filter : option A) (P : A → Prop) : Prop :=
  match filter with
  | Some a => P a
  | None => True
  end.

Global Instance whenPresent_dec {A} (filter : option A) (P : A → Prop)
  `{∀ a, Decision (P a)} : Decision (whenPresent filter P).
Proof. destruct filter; simpl; apply _. Defined.

(** The predicates of the filter table, all of which a matching record
    satisfies. *)
Definition satisfies (filters : Filters.t) (stored : Stored.t) : Prop :=
  let p := Stored.properties stored in
  whenPresent (Filters.is_palindrome filters) (λ b, Props.is_palindrome p = b) ∧
  whenPresent (Filters.min_length filters) (λ n, numLe n (Num (Props.length p))) ∧
  whenPresent (Filters.max_length filters) (λ n, numLe (Num (Props.length p)) n) ∧
  whenPresent (Filters.word_count filters) (λ n, Num (Props.word_count p) = n) ∧
  whenPresent (Filters.contains_character filters)
    (λ c, is_Some (Props.character_frequency_map p !! c)).

Global Instance satisfies_dec filters stored : Decision (satisfies filters stored).
Proof. unfold satisfies. apply _. Defined.

(** [p] occurs in [s]. *)
Definition occurs (p : string) (s : jsstring) : Prop :=
  ∃ before after, s = before ++ js p ++ after.

(** [s] starts with a phrase "longer than N" or "more than N": the keyword,
    then the digits [ds] of N, all of them. *)
Definition lengthPhrase (s ds : jsstring) : Prop :=
  ∃ keyword rest,
    (keyword = "longer than " ∨ keyword = "more than ")%string ∧
    s = js keyword ++ ds ++ rest ∧
    ds ≠ [] ∧
    Forall (λ c, JSString.isDigit c = true) ds ∧
    (∀ c rest', rest = c :: rest' → JSString.isDigit c = false).

(** [s] starts with a phrase "letter X", X a letter from a to z. *)
Definition letterPhrase (s x : jsstring) : Prop :=
  ∃ c rest,
    s = js "letter " ++ c :: rest ∧ JSString.isLowerLetter c = true ∧ x = [c].

(** The first place of [s] where a phrase starts, with what the phrase
    captures there. *)
Definition firstPhrase {A} (phrase : jsstring → A → Prop) (s : jsstring) (a : A) : Prop :=
  ∃ before rest,
    s = before ++ rest ∧ phrase rest a ∧
    ∀ before' rest' a',
      s = before' ++ rest' → phrase rest' a' → (length before ≤ length before')%nat.

(** No phrase starts anywhere in [s]. *)
Definition noPhrase {A} (phrase : jsstring → A → Prop) (s : jsstring) : Prop :=
  ∀ before rest a, s = before ++ rest → ¬ phrase rest a.

(** ** The other handlers *)

(** The numbers [parseInt] can return on any string: the integral doubles
    of either sign (the zero of [parseInt("-0")] is kept as 0, from which
    comparisons do not tell it), the two infinities and NaN. *)
Inductive anyNumber :=
  | Finite (z : Z)
  | PosInfinity
  | NegInfinity
  | NaN.

Global Instance anyNumber_eq_dec : EqDecision anyNumber.
Proof. solve_decision. Defined.

Module AnyNumber.

(** [parseInt(s, 10)]: leading white space is skipped, a sign is read,
    then the longest run of digits; without a digit the result is NaN. *)
Definition parseInt (s : jsstring) : anyNumber :=
  let trimmed := JSString.trimStart s in
  let negative :=
    match trimmed with
    | 45%N :: _ => true
    | _ => false
    end in
  let unsigned :=
    match trimmed with
    | 45%N :: rest => rest
    | 43%N :: rest => rest
    | _ => trimmed
    end in
  match JSString.takeWhile JSString.isDigit unsigned with
  | [] => NaN
  | ds =>
      match JSNumber.roundDouble (JSNumber.digitsValue ds) with
      | Num m => Finite (if negative then - m else m)
      | Infinity => if negative then NegInfinity else PosInfinity
      end
  end.

(** [a < b]: false as soon as one side is NaN. *)
Definition ltb (a b : anyNumber) : bool :=
  match a, b with
  | Finite x, Finite y => x <? y
  | Finite _, PosInfinity => true
  | NegInfinity, Finite _ => true
  | NegInfinity, PosInfinity => true
  | _, _ => false
  end.

(** [a === b]: NaN is not equal to itself. *)
Definition eqb (a b : anyNumber) : bool :=
  match a, b with
  | Finite x, Finite y => x =? y
  | PosInfinity, PosInfinity => true
  | NegInfinity, NegInfinity => true
  | _, _ => false
  end.

End AnyNumber.

(** The filter set the handler of [GET /strings] builds from the query
    string: the numbers are whatever [parseInt] returns. *)
Module QueryFilters.
Record t := mk {
  is_palindrome : option bool;
  min_length : option anyNumber;
  max_length : option anyNumber;
  word_count : option anyNumber;
  contains_character : option jsstring;
}.

(** [{}] *)
Definition empty : t := mk None None None None None.

Definition set_is_palindrome (b : bool) (f : t) : t :=
  mk (Some b) (min_length f) (max_length f) (word_count f) (contains_character f).
Definition set_min_length (n : anyNumber) (f : t) : t :=
  mk (is_palindrome f) (Some n) (max_length f) (word_count f) (contains_character f).
Definition set_max_length (n : anyNumber) (f : t) : t :=
  mk (is_palindrome f) (min_length f) (Some n) (word_count f) (contains_character f).
Definition set_word_count (n : anyNumber) (f : t) : t :=
  mk (is_palindrome f) (min_length f) (max_length f) (Some n) (contains_character f).
Definition set_contains_character (c : jsstring) (f : t) : t :=
  mk (is_palindrome f) (min_length f) (max_length f) (word_count f) (Some c).
End QueryFilters.

Global Instance queryFilters_eq_dec : EqDecision QueryFilters.t.
Proof. solve_decision. Defined.

(** What [list] returns on such a filter set. *)
Module QueryListing.
Record t := mk {
  data : list Stored.t;
  count : Z;
  filters_applied : QueryFilters.t;
}.
End QueryListing.

(** The method [list] of the class Storage, on the filter sets of the
    handler of [GET /strings]. *)
Module QueryStorage.

Definition matchFlag (filters : QueryFilters.t) (stored : Stored.t) : bool :=
  let p := Stored.properties stored in
  let m := true in
  let m :=
    match QueryFilters.is_palindrome filters with
    | Some b => if negb (Bool.eqb (Props.is_palindrome p) b) then false else m
    | None => m
    end in
  let m :=
    match QueryFilters.min_length filters with
    | Some n => if AnyNumber.ltb (Finite (Props.length p)) n then false else m
    | None => m
    end in
  let m :=
    match QueryFilters.max_length filters with
    | Some n => if AnyNumber.ltb n (Finite (Props.length p)) then false else m
    | None => m
    end in
  let m :=
    match QueryFilters.word_count filters with
    | Some n => if negb (AnyNumber.eqb (Finite (Props.word_count p)) n) then false else m
    | None => m
    end in
  let m :=
    match QueryFilters.contains_character filters with
    | Some c =>
        let hasChar :=
          bool_decide (c ∈ (map_to_list (Props.character_frequency_map p)).*1) in
        if negb hasChar then false else m
    | None => m
    end in
  m.

Definition list (filters : QueryFilters.t) (this : Storage.t) : QueryListing.t :=
  let results :=
    fold_left
      (λ results stored,
         if matchFlag filters stored then results ++ [stored] else results)
      (JSMap.values (Storage.strings this)) [] in
  {| QueryListing.data := results;
     QueryListing.count := Z.of_nat (length results);
     QueryListing.filters_applied := filters |}.

End QueryStorage.

(** A value of any type, as far as [typeof value !== "string"] tells:
    [undefined], a string, or a value of another type. *)
Inductive jsvalue :=
  | JSUndefined
  | JSString (s : jsstring)
  | JSOther.

(** What a handler sends: a JSON body of the kinds above, the listing of
    [GET /strings], or nothing ([send()]). *)
Inductive payload :=
  | Json (b : body)
  | JsonListing (result : QueryListing.t)
  | Empty.

Record reply := Reply {
  reply_status : Z;
  reply_payload : payload;
}.

Module Server.

(** The double quote of the messages that quote the field name. *)
Definition quote : string := String "034"%char EmptyString.

Definition invalidDataType : string :=
  ("Invalid data type for " +:+ quote +:+ "value" +:+ quote +:+ " (must be string)")%string.

Definition invalidRequestBody : string :=
  ("Invalid request body or missing " +:+ quote +:+ "value" +:+ quote +:+ " field")%string.

(** [req.params[name]] *)
Fixpoint param (name : string) (params : list (string * jsstring)) : option jsstring :=
  match params with
  | [] => None
  | (n, v) :: params' => if bool_decide (n = name) then Some v else param name params'
  end.

(** A query parameter is truthy when it is present and not empty. *)
Definition truthy (p : option jsstring) : bool :=
  match p with
  | Some (_ :: _) => true
  | _ => false
  end.

(** The filter set the handler of [GET /strings] builds: a parameter that
    is missing or empty sets no filter, except [is_palindrome], which sets
    one as soon as it is present. *)
Definition queryFilters (query : list (jsstring * jsstring)) : QueryFilters.t :=
  let is_palindrome := JSMap.get (js "is_palindrome") query in
  let min_length := JSMap.get (js "min_length") query in
  let max_length := JSMap.get (js "max_length") query in
  let word_count := JSMap.get (js "word_count") query in
  let contains_character := JSMap.get (js "contains_character") query in
  let filters := QueryFilters.empty in
  let filters :=
    match is_palindrome with
    | Some s => QueryFilters.set_is_palindrome (bool_decide (s = js "true")) filters
    | None => filters
    end in
  let filters :=
    if truthy min_length
    then QueryFilters.set_min_length (AnyNumber.parseInt (default [] min_length)) filters
    else filters in
  let filters :=
    if truthy max_length
    then QueryFilters.set_max_length (AnyNumber.parseInt (default [] max_length)) filters
    else filters in
  let filters :=
    if truthy word_count
    then QueryFilters.set_word_count (AnyNumber.parseInt (default [] word_count)) filters
    else filters in
  let filters :=
    if truthy contains_character
    then QueryFilters.set_contains_character (default [] contains_character) filters
    else filters in
  filters.

(** The handler of [GET /strings]; [query] is [req.query], each parameter
    a string. *)
Definition getStringsHandler (query : list (jsstring * jsstring)) (storage : Storage.t)
  : reply :=
  let contains_character := JSMap.get (js "contains_character") query in
  if truthy contains_character
     && negb (length (default [] contains_character) =? 1)%nat
  then Reply 400 (Json (JsonError "Invalid query parameter values or types"))
  else
    let filters := queryFilters query in
    let result := QueryStorage.list filters storage in
    Reply 200 (JsonListing result).

Section Handlers.
Variable toLowerCase : jsstring → jsstring.
Variable sha256 : jsstring → jsstring.

(** The handler of [POST /strings]; [value] is the field [value] of the
    parsed body, [now] the reading of the clock.  The result is the store
    after the call and the response. *)
Definition postStringsHandler (value : jsvalue) (now : jsstring) (storage : Storage.t)
  : Storage.t * response :=
  match value with
  | JSString (c :: s) =>
      match Storage.create toLowerCase sha256 (c :: s) now storage with
      | (storage', inr stored) => (storage', Response 201 (JsonStored stored))
      | (storage', inl (Error message)) =>
          if JSString.includes (js message) (js "exists")
          then (storage', Response 409 (JsonError "String already exists in the system"))
          else (storage', Response 400 (JsonError invalidRequestBody))
      end
  | _ => (storage, Response 422 (JsonError invalidDataType))
  end.

(** The handler of [DELETE /strings/:value]. *)
Definition deleteStringsValueHandler (value : jsstring) (storage : Storage.t)
  : Storage.t * reply :=
  let props := Storage.computeProperties toLowerCase sha256 value in
  match Storage.delete (Props.sha256_hash props) storage with
  | (storage', false) =>
      (storage', Reply 404 (Json (JsonError "String does not exist in the system")))
  | (storage', true) => (storage', Reply 204 Empty)
  end.

Definition sent (r : response) : reply := Reply (status r) (Json (res_body r)).

(** The program on one request: the route is chosen, its handler runs.
    [value] is the field [value] of the body and [now] the clock, which
    only [POST /strings] reads; the query parameters are strings.  The
    reply is what the handler sends (of the reply to a HEAD request the
    body is not transmitted).  [None]: no route of the program matches. *)
Definition serve (req : request) (value : jsvalue) (now : jsstring) (storage : Storage.t)
  : option (Storage.t * reply) :=
  match Router.dispatch Router.routes req with
  | Some (postStrings, _) =>
      let out := postStringsHandler value now storage in
      Some (out.1, sent out.2)
  | Some (getStringsValue, params) =>
      match param "value" params with
      | Some v => Some (storage, sent (Router.getStringsValueHandler toLowerCase sha256 v storage))
      | None => None
      end
  | Some (getStrings, _) =>
      Some (storage, getStringsHandler (req_query req) storage)
  | Some (getStringsFilterByNaturalLanguage, _) =>
      Some (storage,
            sent (Router.getStringsFilterByNaturalLanguageHandler toLowerCase
                    (QueryString <$> JSMap.get (js "query") (req_query req)) storage))
  | Some (deleteStringsValue, params) =>
      match param "value" params with
      | Some v => Some (deleteStringsValueHandler v storage)
      | None => None
      end
  | None => None
  end.
End Handlers.
End Server.

(** A filter set of the list endpoint without NaN and without the negative
    infinity is a filter set of the typed kind. *)
Definition typedNumber (n : anyNumber) : option number :=
  match n with
  | Finite z => Some (Num z)
  | PosInfinity => Some Infinity
  | NegInfinity | NaN => None
  end.

Definition typedFilter (o : option anyNumber) : option (option number) :=
  match o with
  | None => Some None
  | Some n => match typedNumber n with
              | Some n' => Some (Some n')
              | None => None
              end
  end.

Definition typedFilters (f : QueryFilters.t) : option Filters.t :=
  match typedFilter (QueryFilters.min_length f),
        typedFilter (QueryFilters.max_length f),
        typedFilter (QueryFilters.word_count f) with
  | Some lo, Some hi, Some words =>
      Some (Filters.mk (QueryFilters.is_palindrome f) lo hi words
              (QueryFilters.contains_character f))
  | _, _, _ => None
  end.

(** The sum of the counts of a frequency table. *)
Definition totalCount (freq : list (jsstring * Z)) : Z :=
  foldr (λ e acc, e.2 + acc) 0 freq.

(** * Properties *)

(** ** Strings *)

Lemma join_reverse_split (s : jsstring) :
  JSString.joinEmpty (rev (JSString.splitUnits s)) = rev s.
Proof.
  unfold JSString.joinEmpty, JSString.splitUnits.
  induction s as [|c s IH]; [done|].
  simpl. rewrite concat_app, IH. simpl. done.
Qed.

(** ** Trimming and splitting *)

Lemma dropWhile_blank (gap s : jsstring) :
  blank gap →
  JSString.dropWhile JSString.isWhiteSpace (gap ++ s)
  = JSString.dropWhile JSString.isWhiteSpace s.
Proof.
  induction 1 as [|c gap Hc _ IH]; [done|].
  simpl. by rewrite Hc.
Qed.

Lemma dropWhile_solid_head (c : N) (s : jsstring) :
  JSString.isWhiteSpace c = false →
  JSString.dropWhile JSString.isWhiteSpace (c :: s) = c :: s.
Proof. intros Hc. simpl. by rewrite Hc. Qed.

Lemma trim_blank (value : jsstring) : blank value → JSString.trim value = [].
Proof.
  intros Hv. unfold JSString.trim, JSString.trimStart, JSString.trimEnd.
  rewrite <- (app_nil_r value), dropWhile_blank by done. done.
Qed.

Lemma splitLoop_token (tok : jsstring) :
  solid tok → tok ≠ [] →
  ∀ sep cur s,
    JSString.splitLoop sep cur (tok ++ s) = JSString.splitLoop false (cur ++ tok) s.
Proof.
  induction 1 as [|c tok Hc Htok IH]; [done|].
  intros _ sep cur s. simpl. rewrite Hc.
  destruct tok as [|d tok].
  - done.
  - rewrite IH by done. by rewrite <- app_assoc.
Qed.

Lemma splitLoop_gap_more (gap : jsstring) :
  blank gap →
  ∀ cur s, JSString.splitLoop true cur (gap ++ s) = JSString.splitLoop true cur s.
Proof.
  induction 1 as [|c gap Hc _ IH]; [done|].
  intros cur s. simpl. by rewrite Hc.
Qed.

Lemma splitLoop_gap (gap : jsstring) :
  blank gap → gap ≠ [] →
  ∀ cur s,
    JSString.splitLoop false cur (gap ++ s) = cur :: JSString.splitLoop true [] s.
Proof.
  intros Hgap Hne cur s.
  destruct Hgap as [|c gap Hc Hgap]; [done|].
  simpl. rewrite Hc. by rewrite splitLoop_gap_more.
Qed.

Lemma interleaved_tokens (s : jsstring) (toks : list jsstring) :
  interleaved s toks → ∃ tok toks', toks = tok :: toks'.
Proof. destruct 1; eauto. Qed.

(** On a string that is tokens and gaps, the scan yields the tokens. *)
Lemma splitLoop_interleaved (s : jsstring) (toks : list jsstring) :
  interleaved s toks →
  ∀ sep cur,
    JSString.splitLoop sep cur s
    = match toks with
      | tok :: toks' => (cur ++ tok) :: toks'
      | [] => []
      end.
Proof.
  induction 1 as [tok Hne Htok|tok gap s toks Hne Htok Hgne Hgap Hs IH];
    intros sep cur.
  - rewrite <- (app_nil_r tok) at 1. by rewrite splitLoop_token.
  - rewrite splitLoop_token, splitLoop_gap, IH by done.
    by destruct (interleaved_tokens _ _ Hs) as (t & ts & ->).
Qed.

Lemma interleaved_first (s : jsstring) (toks : list jsstring) :
  interleaved s toks →
  ∃ c s', s = c :: s' ∧ JSString.isWhiteSpace c = false.
Proof.
  destruct 1 as [tok Hne Htok|tok gap s toks Hne Htok _ _ _];
    destruct Htok as [|c tok Hc _]; try done; simpl; eauto.
Qed.

Lemma interleaved_last (s : jsstring) (toks : list jsstring) :
  interleaved s toks →
  ∃ s' c, s = s' ++ [c] ∧ JSString.isWhiteSpace c = false.
Proof.
  induction 1 as [tok Hne Htok|tok gap s toks _ _ _ _ _ IH].
  - destruct (exists_last Hne) as (tok' & c & ->).
    apply Forall_app in Htok as [_ Hc]. rewrite Forall_singleton in Hc. eauto.
  - destruct IH as (s' & c & -> & Hc).
    exists (tok ++ gap ++ s'), c. by rewrite <- !app_assoc.
Qed.

Lemma trim_interleaved (before s after : jsstring) (toks : list jsstring) :
  blank before → blank after → interleaved s toks →
  JSString.trim (before ++ s ++ after) = s.
Proof.
  intros Hb Ha Hs. unfold JSString.trim, JSString.trimStart, JSString.trimEnd.
  rewrite dropWhile_blank by done.
  destruct (interleaved_first _ _ Hs) as (c & s1 & Hfirst & Hc).
  destruct (interleaved_last _ _ Hs) as (s2 & d & Hlast & Hd).
  rewrite Hfirst. change ((c :: s1) ++ after) with (c :: (s1 ++ after)).
  rewrite dropWhile_solid_head by done.
  change (c :: s1 ++ after) with ((c :: s1) ++ after). rewrite <- Hfirst, Hlast.
  rewrite rev_app_distr, dropWhile_blank by (by apply Forall_rev).
  rewrite rev_app_distr. simpl. rewrite Hd. simpl.
  by rewrite rev_involutive.
Qed.

Lemma interleaved_extend (c : N) (s tok : jsstring) (toks : list jsstring) :
  JSString.isWhiteSpace c = false →
  interleaved s (tok :: toks) →
  interleaved (c :: s) ((c :: tok) :: toks).
Proof.
  intros Hc Hs. inversion Hs; subst.
  - by constructor; [|constructor].
  - change (c :: tok ++ gap ++ s0) with ((c :: tok) ++ gap ++ s0).
    by constructor; [|constructor|..].
Qed.

(** Every string is blank or holds tokens. *)
Lemma blank_or_tokenized (value : jsstring) :
  blank value ∨ ∃ toks, tokenized value toks.
Proof.
  induction value as [|c value IH]; [by left|].
  destruct (JSString.isWhiteSpace c) eqn:Hc.
  - destruct IH as [Hv|(toks & before & s & after & -> & Hb & Ha & Hs)].
    + left. by constructor.
    + right. exists toks, (c :: before), s, after.
      split_and!; [done|by constructor|done..].
  - right. destruct IH as [Hv|(toks & before & s & after & -> & Hb & Ha & Hs)].
    + exists [[c]], [], [c], value.
      split_and!; [done|done|done|]. constructor; [done|]. by constructor.
    + destruct before as [|b before].
      * destruct (interleaved_tokens _ _ Hs) as (tok & toks' & ->).
        exists ((c :: tok) :: toks'), [], (c :: s), after.
        split_and!; [done|done|done|]. by apply interleaved_extend.
      * exists ([c] :: toks), [], ([c] ++ (b :: before) ++ s), after.
        split_and!; [by rewrite <- !app_assoc|done|done|].
        constructor; [done|by constructor|done|done|done].
Qed.

(** ** The built-in [Map] *)

Section MapFacts.
Context {V : Type}.
Implicit Types (m : list (jsstring * V)) (k : jsstring) (v : V).

Lemma map_get_None m k : JSMap.get k m = None ↔ k ∉ JSMap.keys m.
Proof.
  unfold JSMap.keys. induction m as [|[k' v'] m IH]; simpl.
  - split; [intros _; apply not_elem_of_nil|done].
  - rewrite not_elem_of_cons. case_bool_decide; naive_solver.
Qed.

Lemma map_has_keys m k : JSMap.has k m = true ↔ k ∈ JSMap.keys m.
Proof.
  unfold JSMap.has. pose proof (map_get_None m k) as Hnone.
  destruct (JSMap.get k m).
  - split; [intros _|done].
    destruct (decide (k ∈ JSMap.keys m)) as [|Hk]; [done|].
    apply Hnone in Hk. done.
  - split; [done|]. intros Hk. by apply Hnone in Hk.
Qed.

Lemma map_get_set m k v k' :
  JSMap.get k' (JSMap.set k v m)
  = if decide (k = k') then Some v else JSMap.get k' m.
Proof.
  induction m as [|[k1 v1] m IH]; simpl.
  - case_bool_decide; case_decide; done.
  - case_bool_decide as H1; simpl.
    + subst k1. case_bool_decide; case_decide; done.
    + rewrite IH. case_bool_decide; case_decide; congruence.
Qed.

(** Setting a key that is absent appends the entry. *)
Lemma map_set_new m k v : k ∉ JSMap.keys m → JSMap.set k v m = m ++ [(k, v)].
Proof.
  unfold JSMap.keys. induction m as [|[k1 v1] m IH]; simpl; [done|].
  intros [Hne Hk]%not_elem_of_cons.
  rewrite bool_decide_eq_false_2 by done. by rewrite IH.
Qed.

(** Setting a key that is present leaves the keys as they are. *)
Lemma map_set_keys_old m k v : k ∈ JSMap.keys m → JSMap.keys (JSMap.set k v m) = JSMap.keys m.
Proof.
  unfold JSMap.keys. induction m as [|[k1 v1] m IH]; simpl; [by intros ?%elem_of_nil|].
  case_bool_decide as H1; simpl.
  - by subst.
  - intros [?|Hk]%elem_of_cons; [congruence|]. f_equal. by apply IH.
Qed.

Lemma map_set_NoDup m k v : NoDup (JSMap.keys m) → NoDup (JSMap.keys (JSMap.set k v m)).
Proof.
  intros Hm. destruct (decide (k ∈ JSMap.keys m)) as [Hk|Hk].
  - by rewrite map_set_keys_old.
  - rewrite map_set_new by done. unfold JSMap.keys in *.
    rewrite fmap_app. apply NoDup_app. split_and!; [done| |apply NoDup_singleton].
    intros x Hx ->%list_elem_of_singleton. done.
Qed.

Lemma map_delete_sublist m k : sublist (JSMap.delete k m) m.
Proof.
  induction m as [|[k1 v1] m IH]; simpl; [done|].
  case_bool_decide; [by apply sublist_cons|by apply sublist_skip].
Qed.

(** An object made from entries with distinct keys maps each key to the
    value the [Map] holds for it. *)
Lemma fromEntries_lookup m k :
  NoDup (JSMap.keys m) → fromEntries m !! k = JSMap.get k m.
Proof.
  unfold fromEntries.
  assert (Hgen : ∀ (o : gmap jsstring V),
    NoDup (JSMap.keys m) →
    fold_left (λ o e, <[e.1 := e.2]> o) m o !! k
    = match JSMap.get k m with Some v => Some v | None => o !! k end).
  { unfold JSMap.keys. induction m as [|[k1 v1] m IH]; simpl; intros o Hm; [done|].
    apply NoDup_cons in Hm as [Hk1 Hm]. rewrite IH by done.
    case_bool_decide as H1.
    - subst k1. apply map_get_None in Hk1. rewrite Hk1. apply lookup_insert_eq.
    - destruct (JSMap.get k m); [done|]. by apply lookup_insert_ne. }
  intros Hm. rewrite Hgen by done. by destruct (JSMap.get k m).
Qed.
End MapFacts.

(** ** Counting characters *)

Lemma occurrences_cons (char c : jsstring) (chars : list jsstring) :
  occurrences char (c :: chars)
  = ((if decide (c = char) then 1 else 0) + occurrences char chars)%nat.
Proof. unfold occurrences. rewrite filter_cons. by case_decide. Qed.

Lemma occurrences_zero (char : jsstring) (chars : list jsstring) :
  occurrences char chars = 0%nat ↔ char ∉ chars.
Proof.
  induction chars as [|c chars IH].
  - split; [intros _; apply not_elem_of_nil|done].
  - rewrite occurrences_cons, not_elem_of_cons. case_decide; [|naive_solver lia].
    split; [lia|]. intros [? _]. congruence.
Qed.

Lemma countChar_NoDup (chars : list jsstring) (freq : list (jsstring * Z)) :
  NoDup (JSMap.keys freq) →
  NoDup (JSMap.keys (fold_left Storage.countChar chars freq)).
Proof.
  revert freq. induction chars as [|c chars IH]; intros freq Hfreq; [done|].
  simpl. apply IH. by apply map_set_NoDup.
Qed.

Lemma countChar_get (chars : list jsstring) (freq : list (jsstring * Z)) (char : jsstring) :
  JSMap.get char (fold_left Storage.countChar chars freq)
  = if decide (occurrences char chars = 0%nat) then JSMap.get char freq
    else Some (default 0 (JSMap.get char freq) + Z.of_nat (occurrences char chars)).
Proof.
  revert freq. induction chars as [|c chars IH]; intros freq; [done|].
  simpl. rewrite IH, occurrences_cons.
  replace (JSMap.get char (Storage.countChar freq c))
    with (if decide (c = char) then Some (default 0 (JSMap.get char freq) + 1)
          else JSMap.get char freq).
  2:{ unfold Storage.countChar. rewrite map_get_set.
      destruct (decide (c = char)) as [->|]; done. }
  repeat case_decide; subst; simpl; try done; try (exfalso; lia); f_equal; lia.
Qed.

Lemma charFrequencies_get (value char : jsstring) :
  JSMap.get char (Storage.charFrequencies value)
  = if decide (char ∈ JSString.codePoints value)
    then Some (Z.of_nat (occurrences char (JSString.codePoints value)))
    else None.
Proof.
  unfold Storage.charFrequencies. rewrite countChar_get. simpl.
  pose proof (occurrences_zero char (JSString.codePoints value)).
  repeat case_decide; naive_solver.
Qed.

Lemma charFrequencies_size (value : jsstring) :
  JSMap.size (Storage.charFrequencies value)
  = Z.of_nat (length (remove_dups (JSString.codePoints value))).
Proof.
  unfold JSMap.size. f_equal.
  rewrite <- (length_fmap fst). apply Permutation_length, NoDup_Permutation.
  - apply (countChar_NoDup _ []). constructor.
  - apply NoDup_remove_dups.
  - intros char. rewrite elem_of_remove_dups.
    pose proof (map_get_None (Storage.charFrequencies value) char) as Hnone.
    rewrite charFrequencies_get in Hnone. unfold JSMap.keys in Hnone.
    case_decide; [|naive_solver].
    split; [done|intros _].
    destruct (decide (char ∈ (Storage.charFrequencies value).*1)) as [|Hn]; [done|].
    apply Hnone in Hn. done.
Qed.

(** Without a surrogate pair every code unit is a character of its own. *)
Lemma codePoints_without_pair (value : jsstring) :
  hasSurrogatePair value = false →
  JSString.codePoints value = JSString.splitUnits value.
Proof.
  induction value as [|c value IH]; [done|].
  destruct value as [|d value]; [done|].
  change (hasSurrogatePair (c :: d :: value))
    with ((JSString.isHighSurrogate c && JSString.isLowSurrogate d)
          || hasSurrogatePair (d :: value)).
  change (JSString.codePoints (c :: d :: value))
    with (if JSString.isHighSurrogate c && JSString.isLowSurrogate d
          then [c; d] :: JSString.codePoints value
          else [c] :: JSString.codePoints (d :: value)).
  intros [Hpair Hrest]%orb_false_iff. rewrite Hpair, IH by done. done.
Qed.

Lemma occurrences_units (c : N) (value : jsstring) :
  occurrences [c] (JSString.splitUnits value) = unitOccurrences c value.
Proof.
  unfold occurrences, unitOccurrences, JSString.splitUnits.
  induction value as [|u value IH]; [done|].
  simpl. rewrite !filter_cons.
  destruct (decide (u = c)) as [->|Hne].
  - rewrite decide_True by done. simpl. by rewrite IH.
  - rewrite decide_False by (by intros [= ?]). done.
Qed.

Lemma elem_of_units (key : jsstring) (value : jsstring) :
  key ∈ JSString.splitUnits value ↔ ∃ c, key = [c] ∧ c ∈ value.
Proof. apply list_elem_of_fmap. Qed.

Lemma remove_dups_units (value : jsstring) :
  length (remove_dups (JSString.splitUnits value)) = length (remove_dups value).
Proof.
  unfold JSString.splitUnits. induction value as [|u value IH]; [done|].
  assert (Hiff : [u] ∈ map (λ c, [c]) value ↔ u ∈ value).
  { rewrite (list_elem_of_fmap (λ c : N, [c])). split; [|by exists u].
    by intros (u' & [= <-] & Hin). }
  cbn [map remove_dups]. repeat case_decide; simpl; rewrite ?IH; tauto.
Qed.

(** ** The store *)

Lemma keyed_keys (m : list (jsstring * Stored.t)) :
  Forall keyed m → JSMap.keys m = digest <$> JSMap.values m.
Proof.
  unfold JSMap.keys, JSMap.values.
  induction 1 as [|[k stored] m [Hid Hk] _ IH]; [done|].
  csimpl. rewrite IH. f_equal. simpl in *. unfold digest. congruence.
Qed.

Lemma keyed_delete (m : list (jsstring * Stored.t)) (hash : jsstring) :
  Forall keyed m → Forall keyed (JSMap.delete hash m).
Proof.
  intros Hm. apply Forall_forall. intros e He.
  eapply Forall_forall; [exact Hm|].
  eapply elem_of_sublist; [exact He|apply map_delete_sublist].
Qed.

Lemma keys_delete_NoDup {V} (m : list (jsstring * V)) (hash : jsstring) :
  NoDup (JSMap.keys m) → NoDup (JSMap.keys (JSMap.delete hash m)).
Proof.
  intros Hm. eapply sublist_NoDup; [exact Hm|].
  unfold JSMap.keys. apply fmap_sublist, map_delete_sublist.
Qed.

(** ** The filter engine *)

Lemma ltb_false_numLe (a b : number) : JSNumber.ltb a b = false ↔ numLe b a.
Proof.
  destruct a as [x|], b as [y|]; simpl; try done.
  rewrite Z.ltb_ge. done.
Qed.

Lemma object_keys_includes {V} (o : gmap jsstring V) (c : jsstring) :
  c ∈ (map_to_list o).*1 ↔ is_Some (o !! c).
Proof.
  rewrite list_elem_of_fmap. split.
  - intros ([k v] & -> & Hin). apply elem_of_map_to_list in Hin. by exists v.
  - intros [v Hv]. exists (c, v). split; [done|]. by apply elem_of_map_to_list.
Qed.

Lemma ltb_true_numLe (a b : number) : JSNumber.ltb a b = true ↔ ¬ numLe b a.
Proof. rewrite <- ltb_false_numLe. by destruct (JSNumber.ltb a b). Qed.

Lemma strict_eqb_number (a b : number) : JSNumber.eqb a b = true ↔ a = b.
Proof. apply bool_decide_eq_true. Qed.

Lemma strict_neqb_number (a b : number) : JSNumber.eqb a b = false ↔ a ≠ b.
Proof. apply bool_decide_eq_false. Qed.

Lemma includes_key_true {V} (o : gmap jsstring V) (c : jsstring) :
  bool_decide (c ∈ (map_to_list o).*1) = true ↔ is_Some (o !! c).
Proof. by rewrite bool_decide_eq_true, object_keys_includes. Qed.

Lemma includes_key_false {V} (o : gmap jsstring V) (c : jsstring) :
  bool_decide (c ∈ (map_to_list o).*1) = false ↔ ¬ is_Some (o !! c).
Proof. by rewrite bool_decide_eq_false, object_keys_includes. Qed.

(** Turns the outcome of a test of the loop into the predicate it decides. *)
Ltac test_to_prop H :=
  rewrite ?negb_true_iff, ?negb_false_iff in H;
  rewrite ?Bool.eqb_true_iff, ?Bool.eqb_false_iff,
          ?ltb_false_numLe, ?ltb_true_numLe,
          ?strict_eqb_number, ?strict_neqb_number,
          ?includes_key_true, ?includes_key_false in H.

(** The flag the loop computes is the conjunction of the predicates. *)
Lemma matchFlag_satisfies (filters : Filters.t) (stored : Stored.t) :
  Storage.matchFlag filters stored = true ↔ satisfies filters stored.
Proof.
  unfold Storage.matchFlag, satisfies, whenPresent.
  destruct filters as [pal lo hi words char].
  cbn [Filters.is_palindrome Filters.min_length Filters.max_length
       Filters.word_count Filters.contains_character].
  destruct pal as [b|], lo as [n1|], hi as [n2|], words as [n3|], char as [c|];
    repeat match goal with
    | |- context [if ?t then false else _] =>
        let H := fresh "Htest" in destruct t eqn:H; test_to_prop H
    end;
    split; try done; try tauto.
Qed.

Lemma list_loop_filter (filters : Filters.t) (values results : list Stored.t) :
  fold_left
    (λ results stored,
       if Storage.matchFlag filters stored then results ++ [stored] else results)
    values results
  = results ++ filter (satisfies filters) values.
Proof.
  revert results. induction values as [|stored values IH]; intros results; simpl.
  - by rewrite filter_nil, app_nil_r.
  - rewrite IH, filter_cons.
    pose proof (matchFlag_satisfies filters stored) as Hflag.
    destruct (Storage.matchFlag filters stored); case_decide; try tauto.
    + by rewrite <- app_assoc.
    + exfalso. naive_solver.
Qed.

Lemma filter_all {A} (P : A → Prop) `{∀ x, Decision (P x)} (l : list A) :
  (∀ x, P x) → filter P l = l.
Proof.
  intros HP. induction l as [|x l IH]; [done|].
  rewrite filter_cons, decide_True by done. by rewrite IH.
Qed.

Lemma filter_none {A} (P : A → Prop) `{∀ x, Decision (P x)} (l : list A) :
  (∀ x, ¬ P x) → filter P l = [].
Proof.
  intros HP. induction l as [|x l IH]; [done|].
  rewrite filter_cons, decide_False by done. done.
Qed.

(** ** Searching a string *)

Lemma afterPrefix_Some (p s rest : jsstring) :
  JSString.afterPrefix p s = Some rest ↔ s = p ++ rest.
Proof.
  revert s. induction p as [|a p IH]; intros s; simpl.
  - naive_solver.
  - destruct s as [|b s]; [done|].
    destruct (N.eqb_spec a b) as [->|Hne].
    + rewrite IH. naive_solver.
    + naive_solver.
Qed.

Lemma startsWith_true (p s : jsstring) :
  JSString.startsWith p s = true ↔ ∃ rest, s = p ++ rest.
Proof.
  revert s. induction p as [|a p IH]; intros s; simpl.
  - naive_solver.
  - destruct s as [|b s]; [naive_solver|].
    rewrite andb_true_iff, N.eqb_eq, IH. naive_solver.
Qed.

Lemma includes_true (s p : jsstring) :
  JSString.includes s p = true ↔ ∃ before after, s = before ++ p ++ after.
Proof.
  induction s as [|c s IH]; simpl; rewrite orb_true_iff, startsWith_true.
  - split.
    + intros [[rest ->]|?]; [|done]. by exists [], rest.
    + intros ([|??] & after & H); [|done]. left. by exists after.
  - rewrite IH. split.
    + intros [[rest ->]|(before & after & ->)].
      * by exists [], rest.
      * by exists (c :: before), after.
    + intros ([|b before] & after & H).
      * left. by exists after.
      * right. exists before, after. by injection H.
Qed.

Lemma includes_occurs (s : jsstring) (p : string) :
  JSString.includes s (js p) = true ↔ occurs p s.
Proof. apply includes_true. Qed.

Lemma search_Some {A} (m : jsstring → option A) (s : jsstring) (a : A) :
  JSString.search m s = Some a →
  ∃ before rest,
    s = before ++ rest ∧ m rest = Some a ∧
    ∀ before' rest',
      s = before' ++ rest' → is_Some (m rest') → (length before ≤ length before')%nat.
Proof.
  induction s as [|c s IH]; simpl.
  - destruct (m []) eqn:Hm; [|done]. intros [= ->].
    exists [], []. split_and!; [done..|]. intros; simpl; lia.
  - destruct (m (c :: s)) eqn:Hm.
    + intros [= ->]. exists [], (c :: s). split_and!; [done..|]. intros; simpl; lia.
    + intros (before & rest & -> & Hrest & Hmin)%IH.
      exists (c :: before), rest. split_and!; [done..|].
      intros [|c' before'] rest' Heq Hsome.
      * simpl in Heq. subst rest'. rewrite Hm in Hsome. by destruct Hsome.
      * injection Heq as -> Heq. simpl. apply Hmin in Heq; [lia|done].
Qed.

Lemma search_None {A} (m : jsstring → option A) (s : jsstring) :
  JSString.search m s = None → ∀ before rest, s = before ++ rest → m rest = None.
Proof.
  induction s as [|c s IH]; simpl.
  - destruct (m []) eqn:Hm; [done|]. intros _ [|??] rest Heq; [|done].
    simpl in Heq. by subst.
  - destruct (m (c :: s)) eqn:Hm; [done|]. intros Hs [|c' before] rest Heq.
    + simpl in Heq. by subst.
    + injection Heq as -> Heq. by eapply IH.
Qed.

(** The search of a pattern finds the first phrase, when the attempts of
    the pattern at an index succeed exactly on the phrases. *)
Lemma search_firstPhrase {A B} (m : jsstring → option A) (f : A → B)
    (phrase : jsstring → B → Prop) (s : jsstring) :
  (∀ rest b, phrase rest b ↔ ∃ a, m rest = Some a ∧ f a = b) →
  (∀ b, firstPhrase phrase s b ↔ ∃ a, JSString.search m s = Some a ∧ f a = b)
  ∧ (noPhrase phrase s ↔ JSString.search m s = None).
Proof.
  intros Hm.
  assert (Hfound : ∀ a, JSString.search m s = Some a → firstPhrase phrase s (f a)).
  { intros a (before & rest & -> & Hrest & Hmin)%search_Some.
    exists before, rest. split_and!; [done|apply Hm; eauto|].
    intros before' rest' b' Heq (a' & Ha' & _)%Hm. apply (Hmin _ rest'); [done|eauto]. }
  assert (Hmissing : JSString.search m s = None → noPhrase phrase s).
  { intros Hnone before rest b Heq (a & Ha & _)%Hm.
    rewrite (search_None _ _ Hnone _ _ Heq) in Ha. done. }
  split.
  - intros b. split; [|intros (a & Ha & <-); by apply Hfound].
    intros (before & rest & Heq & Hphrase & Hmin).
    destruct (JSString.search m s) as [a|] eqn:Hsearch.
    + exists a. split; [done|].
      destruct (Hfound a eq_refl) as (before2 & rest2 & Heq2 & Hphrase2 & Hmin2).
      pose proof (Hmin _ _ _ Heq2 Hphrase2) as Hle.
      pose proof (Hmin2 _ _ _ Heq Hphrase) as Hge.
      assert (before = before2 ∧ rest = rest2) as [-> ->].
      { subst s. apply app_inj_1 in Heq2; [done|lia]. }
      apply Hm in Hphrase as (a1 & Ha1 & <-). apply Hm in Hphrase2 as (a2 & Ha2 & <-).
      congruence.
    + exfalso. by eapply (Hmissing eq_refl).
  - split; [|done]. intros Hno.
    destruct (JSString.search m s) as [a|] eqn:Hsearch; [|done].
    destruct (Hfound a eq_refl) as (before & rest & Heq & Hphrase & _).
    exfalso. by eapply Hno.
Qed.

Lemma takeWhile_run (p : N → bool) (run rest : jsstring) :
  Forall (λ c, p c = true) run →
  (∀ c rest', rest = c :: rest' → p c = false) →
  JSString.takeWhile p (run ++ rest) = run.
Proof.
  intros Hrun Hrest. induction Hrun as [|c run Hc _ IH]; simpl.
  - destruct rest as [|c rest']; [done|]. simpl. by rewrite (Hrest c rest').
  - by rewrite Hc, IH.
Qed.

Lemma takeWhile_split (p : N → bool) (s : jsstring) :
  ∃ rest,
    s = JSString.takeWhile p s ++ rest ∧
    Forall (λ c, p c = true) (JSString.takeWhile p s) ∧
    (∀ c rest', rest = c :: rest' → p c = false).
Proof.
  induction s as [|c s (rest & Hs & Hrun & Hrest)]; simpl.
  - exists []. by split_and!.
  - destruct (p c) eqn:Hc.
    + exists rest. split_and!; [simpl; by f_equal|by constructor|done].
    + exists (c :: s). split_and!; [done|done|]. by intros ?? [= <- _].
Qed.

(** ** The patterns of the interpreter *)

Lemma keywordDigits_Some (keyword : string) (s ds : jsstring) :
  Interpreter.keywordDigits keyword s = Some ds
  ↔ ∃ rest,
      s = js keyword ++ ds ++ rest ∧ ds ≠ [] ∧
      Forall (λ c, JSString.isDigit c = true) ds ∧
      (∀ c rest', rest = c :: rest' → JSString.isDigit c = false).
Proof.
  unfold Interpreter.keywordDigits. split.
  - destruct (JSString.afterPrefix _ s) as [tail|] eqn:Hprefix; [|done].
    apply afterPrefix_Some in Hprefix as ->.
    destruct (takeWhile_split JSString.isDigit tail) as (rest & Htail & Hrun & Hrest).
    destruct (JSString.takeWhile JSString.isDigit tail) as [|d run] eqn:Htake; [done|].
    intros [= <-]. exists rest. by split_and!; [rewrite <- Htail|..].
  - intros (rest & -> & Hne & Hrun & Hrest).
    assert (JSString.afterPrefix (js keyword) (js keyword ++ ds ++ rest)
            = Some (ds ++ rest)) as -> by by apply afterPrefix_Some.
    rewrite takeWhile_run by done. by destruct ds.
Qed.

Lemma lengthPattern_phrase (s ds : jsstring) :
  lengthPhrase s ds
  ↔ ∃ m, Interpreter.lengthPattern s = Some m ∧ Interpreter.firstCapture m = ds.
Proof.
  unfold Interpreter.lengthPattern, lengthPhrase. split.
  - intros (keyword & rest & [-> | ->] & Hs & Hrest).
    + assert (Interpreter.keywordDigits "longer than " s = Some ds) as ->
        by (apply keywordDigits_Some; eauto).
      by exists (inl ds).
    + assert (Interpreter.keywordDigits "more than " s = Some ds) as Hmore
        by (apply keywordDigits_Some; eauto).
      assert (Interpreter.keywordDigits "longer than " s = None) as ->
        by (by rewrite Hs).
      rewrite Hmore. by exists (inr ds).
  - intros (m & Hm & <-).
    destruct (Interpreter.keywordDigits "longer than " s) as [ds1|] eqn:H1.
    + injection Hm as <-. apply keywordDigits_Some in H1 as (rest & ?).
      exists "longer than "%string, rest. naive_solver.
    + destruct (Interpreter.keywordDigits "more than " s) as [ds2|] eqn:H2; [|done].
      injection Hm as <-. apply keywordDigits_Some in H2 as (rest & ?).
      exists "more than "%string, rest. naive_solver.
Qed.

Lemma letterPattern_phrase (s x : jsstring) :
  letterPhrase s x ↔ ∃ m, Interpreter.letterPattern s = Some m ∧ m = x.
Proof.
  unfold Interpreter.letterPattern, letterPhrase. split.
  - intros (c & rest & -> & Hc & ->).
    assert (JSString.afterPrefix (js "letter ") (js "letter " ++ c :: rest)
            = Some (c :: rest)) as -> by by apply afterPrefix_Some.
    rewrite Hc. eauto.
  - intros (m & Hm & <-).
    destruct (JSString.afterPrefix _ s) as [[|c rest]|] eqn:Hprefix; [done| |done].
    apply afterPrefix_Some in Hprefix as ->.
    destruct (JSString.isLowerLetter c) eqn:Hc; [|done].
    injection Hm as <-. by exists c, rest.
Qed.

(** ** Numbers *)

Lemma roundDouble_exact (z : Z) : z ≤ 2 ^ 53 → JSNumber.roundDouble z = Num z.
Proof.
  intros Hz. destruct (decide (z = 2 ^ 53)) as [->|Hne]; [done|].
  unfold JSNumber.roundDouble. by rewrite (proj2 (Z.ltb_lt z (2 ^ 53))) by lia.
Qed.

Lemma parseInt_digits (ds : jsstring) :
  Forall (λ c, JSString.isDigit c = true) ds →
  JSNumber.parseInt ds = JSNumber.roundDouble (JSNumber.digitsValue ds).
Proof.
  intros Hds. unfold JSNumber.parseInt.
  rewrite <- (app_nil_r ds) at 1. by rewrite takeWhile_run.
Qed.

(** One above N, as long as the doubles are exact. *)
Lemma succ_parseInt_exact (ds : jsstring) :
  Forall (λ c, JSString.isDigit c = true) ds →
  JSNumber.digitsValue ds < 2 ^ 53 →
  JSNumber.succ (JSNumber.parseInt ds) = Num (JSNumber.digitsValue ds + 1).
Proof.
  intros Hds Hsmall. rewrite parseInt_digits by done.
  rewrite roundDouble_exact by lia. simpl. apply roundDouble_exact. lia.
Qed.

(** ** The rules of the interpreter *)

(** Each field of the filter set the rules build, by the tests that set it. *)
Lemma applyRules_fields (q : jsstring) :
  let filters := Interpreter.applyRules q in
  Filters.is_palindrome filters
  = (if JSString.includes q (js "palindromic") || JSString.includes q (js "palindrome")
     then Some true else None)
  ∧ Filters.word_count filters
    = (if JSString.includes q (js "single word") || JSString.includes q (js "one word")
       then Some (Num 1) else None)
  ∧ Filters.min_length filters
    = match JSString.search Interpreter.lengthPattern q with
      | Some m => Some (JSNumber.succ (JSNumber.parseInt (Interpreter.firstCapture m)))
      | None => None
      end
  ∧ Filters.max_length filters = None
  ∧ Filters.contains_character filters
    = (if JSString.includes q (js "z") then Some (js "z")
       else if JSString.includes q (js "vowel") then Some (js "a")
       else JSString.search Interpreter.letterPattern q).
Proof.
  unfold Interpreter.applyRules.
  destruct (JSString.includes q (js "palindromic") || JSString.includes q (js "palindrome"));
    destruct (JSString.includes q (js "single word") || JSString.includes q (js "one word"));
    destruct (JSString.search Interpreter.lengthPattern q);
    destruct (JSString.search Interpreter.letterPattern q);
    destruct (JSString.includes q (js "vowel"));
    destruct (JSString.includes q (js "z"));
    by split_and!.
Qed.

Lemma applyRules_max_length (q : jsstring) :
  Filters.max_length (Interpreter.applyRules q) = None.
Proof. apply applyRules_fields. Qed.

Lemma keysLength_zero (filters : Filters.t) :
  Filters.keysLength filters = 0%nat ↔ filters = Filters.empty.
Proof.
  destruct filters as [[?|] [?|] [?|] [?|] [?|]]; unfold Filters.keysLength; simpl;
    split; (done || lia).
Qed.

(** Without [max_length] nothing conflicts, and the result is the filter
    set, or [null] for the empty one. *)
Lemma finish_without_max (filters : Filters.t) :
  Filters.max_length filters = None →
  Interpreter.conflicting filters = false
  ∧ Interpreter.finish filters
    = inr (if decide (filters = Filters.empty) then None else Some filters).
Proof.
  intros Hmax.
  assert (Hconflict : Interpreter.conflicting filters = false).
  { unfold Interpreter.conflicting. rewrite Hmax. by destruct (Filters.min_length filters). }
  split; [done|]. unfold Interpreter.finish. rewrite Hconflict.
  pose proof (keysLength_zero filters) as Hzero.
  destruct (Nat.eqb_spec (Filters.keysLength filters) 0); case_decide; naive_solver.
Qed.

(** ** Routing *)

(** Evaluates the tests of the methods of the routes against a known
    method. *)
Ltac route_methods :=
  repeat match goal with
  | |- context [Router.handles ?m ?requested] =>
      let v := eval vm_compute in (Router.handles m requested) in
      change (Router.handles m requested) with v
  end;
  cbv iota.

(** One case split of a path match. *)
Ltac route_case :=
  first
    [ case_bool_decide; subst
    | match goal with
      | |- context [match ?x with [] => _ | _ :: _ => _ end] => is_var x; destruct x
      end ];
  cbn [Router.matchPath].

Section Properties.
Variable toLowerCase : jsstring → jsstring.
Variable sha256 : jsstring → jsstring.
Hypothesis toLowerCase_ascii : lowersAscii toLowerCase.

Local Abbreviation compute := (Storage.computeProperties toLowerCase sha256).

(** C4. [is_palindrome] holds exactly when the lower-cased value equals
    the lower-cased reversal of its code units; nothing is stripped:
    "Level" is a palindrome, "level " with its trailing space is not. *)
Theorem is_palindrome_reversal :
  (∀ value,
     Props.is_palindrome (compute value) = true
     ↔ toLowerCase value = toLowerCase (rev value))
  ∧ Props.is_palindrome (compute (js "Level")) = true
  ∧ Props.is_palindrome (compute (js "level ")) = false.
Proof.
  assert (Hpal : ∀ value,
    Props.is_palindrome (compute value)
    = bool_decide (toLowerCase value = toLowerCase (rev value))).
  { intros value. simpl. by rewrite join_reverse_split. }
  split; [|split].
  - intros value. rewrite Hpal. apply bool_decide_eq_true.
  - rewrite Hpal.
    rewrite (toLowerCase_ascii (js "Level")) by done.
    rewrite (toLowerCase_ascii (rev (js "Level"))) by done.
    done.
  - rewrite Hpal.
    rewrite (toLowerCase_ascii (js "level ")) by done.
    rewrite (toLowerCase_ascii (rev (js "level "))) by done.
    done.
Qed.

(** C5. [word_count] is the number of tokens that white space delimits in
    the value, white space around them being trimmed and a run of white
    space being one separator; a value that is empty after trimming, as the
    empty string and the blank strings are, has word count 1. *)
Theorem word_count_tokens :
  (∀ value toks,
     tokenized value toks →
     JSString.splitWhiteSpace (JSString.trim value) = toks
     ∧ Props.word_count (compute value) = Z.of_nat (length toks))
  ∧ (∀ value, blank value ∨ ∃ toks, tokenized value toks)
  ∧ (∀ value, blank value → JSString.trim value = [])
  ∧ (∀ value, JSString.trim value = [] → Props.word_count (compute value) = 1)
  ∧ Props.word_count (compute (js "hello world")) = 2
  ∧ Props.word_count (compute (js "   ")) = 1
  ∧ Props.word_count (compute (js "")) = 1.
Proof.
  split_and!.
  - intros value toks (before & s & after & -> & Hb & Ha & Hs).
    simpl. rewrite (trim_interleaved _ _ _ toks) by done.
    unfold JSString.splitWhiteSpace. rewrite (splitLoop_interleaved _ toks) by done.
    by destruct (interleaved_tokens _ _ Hs) as (t & ts & ->).
  - apply blank_or_tokenized.
  - apply trim_blank.
  - intros value Hv. simpl. by rewrite Hv.
  - done.
  - done.
  - done.
Qed.

(** C6, as amended.  [character_frequency_map] maps each character that
    occurs in the value to the number of its occurrences and has no other
    key, and [unique_characters] is the number of distinct characters,
    where the characters are those the string iterator yields: a surrogate
    pair is one character, under a key of two code units, and every other
    code unit is a character of its own.  On a value without a surrogate
    pair the characters are the code units: the keys are the strings of
    one code unit that occurs, each with the number of its occurrences,
    and [unique_characters] is the number of distinct code units.  "aabb"
    has 2 distinct characters and the map a:2, b:2. *)
Theorem character_frequency_counts :
  (∀ value char,
     Props.character_frequency_map (compute value) !! char
     = if decide (char ∈ JSString.codePoints value)
       then Some (Z.of_nat (occurrences char (JSString.codePoints value)))
       else None)
  ∧ (∀ value,
       Props.unique_characters (compute value)
       = Z.of_nat (length (remove_dups (JSString.codePoints value))))
  ∧ (∀ value,
       hasSurrogatePair value = false →
       JSString.codePoints value = JSString.splitUnits value
       ∧ (∀ c,
            Props.character_frequency_map (compute value) !! [c]
            = if decide (c ∈ value)
              then Some (Z.of_nat (unitOccurrences c value))
              else None)
       ∧ (∀ key,
            is_Some (Props.character_frequency_map (compute value) !! key) →
            ∃ c, key = [c] ∧ c ∈ value)
       ∧ Props.unique_characters (compute value)
         = Z.of_nat (length (remove_dups value)))
  ∧ Props.unique_characters (compute (js "aabb")) = 2
  ∧ Props.character_frequency_map (compute (js "aabb"))
    = {[ js "a" := 2; js "b" := 2 ]}.
Proof.
  assert (Hmap : ∀ value char,
    Props.character_frequency_map (compute value) !! char
    = if decide (char ∈ JSString.codePoints value)
      then Some (Z.of_nat (occurrences char (JSString.codePoints value)))
      else None).
  { intros value char. simpl. rewrite fromEntries_lookup.
    - apply charFrequencies_get.
    - apply (countChar_NoDup _ []). constructor. }
  assert (Hunique : ∀ value,
    Props.unique_characters (compute value)
    = Z.of_nat (length (remove_dups (JSString.codePoints value)))).
  { intros value. simpl. apply charFrequencies_size. }
  split_and!.
  - done.
  - done.
  - intros value Hpair. pose proof (codePoints_without_pair value Hpair) as Hunits.
    split_and!.
    + done.
    + intros c. rewrite Hmap, Hunits, occurrences_units.
      pose proof (elem_of_units [c] value) as Hin.
      repeat case_decide; try done.
      * exfalso. destruct Hin as [(c' & [= <-] & ?) _]; done.
      * exfalso. destruct Hin as [_ Hin]. eauto.
    + intros key. rewrite Hmap, Hunits. case_decide as Hin; [|by intros [??]].
      intros _. by apply elem_of_units.
    + by rewrite Hunique, Hunits, remove_dups_units.
  - done.
  - done.
Qed.

(** What [create] and [delete] preserve: the entries are keyed by their
    digests and no key occurs twice. *)
Lemma create_keeps (value now : jsstring) (st : Storage.t) :
  Forall keyed (Storage.strings st) ∧ NoDup (JSMap.keys (Storage.strings st)) →
  let st' := (Storage.create toLowerCase sha256 value now st).1 in
  Forall keyed (Storage.strings st') ∧ NoDup (JSMap.keys (Storage.strings st')).
Proof.
  intros [Hkeyed Hkeys]. unfold Storage.create.
  destruct (JSMap.has _ _) eqn:Hhas; simpl; [done|].
  split; [|by apply map_set_NoDup].
  rewrite map_set_new.
  - apply Forall_app. split; [done|]. by apply Forall_singleton.
  - intros Hin. apply map_has_keys in Hin. simpl in Hhas. congruence.
Qed.

Lemma delete_keeps (hash : jsstring) (st : Storage.t) :
  Forall keyed (Storage.strings st) ∧ NoDup (JSMap.keys (Storage.strings st)) →
  let st' := (Storage.delete hash st).1 in
  Forall keyed (Storage.strings st') ∧ NoDup (JSMap.keys (Storage.strings st')).
Proof.
  intros [Hkeyed Hkeys]. simpl.
  split; [by apply keyed_delete|by apply keys_delete_NoDup].
Qed.

Lemma reachable_keeps (st : Storage.t) :
  reachable toLowerCase sha256 st →
  Forall keyed (Storage.strings st) ∧ NoDup (JSMap.keys (Storage.strings st)).
Proof.
  unfold reachable. revert st. apply rtc_ind_r.
  - split; constructor.
  - intros st st' _ Hstep IH.
    destruct Hstep; [by apply create_keeps|by apply delete_keeps].
Qed.

(** C2. In every store that [create] and [delete] calls lead to from the
    empty store, each record has [id] equal to [properties.sha256_hash], is
    stored under the key equal to that [id], and no two records have the
    same digest. *)
Theorem store_content_addressed (st : Storage.t) :
  reachable toLowerCase sha256 st →
  Forall (λ entry,
            Stored.id entry.2 = Props.sha256_hash (Stored.properties entry.2)
            ∧ entry.1 = Stored.id entry.2)
         (Storage.strings st)
  ∧ NoDup (digest <$> JSMap.values (Storage.strings st)).
Proof.
  intros [Hkeyed Hkeys]%reachable_keeps.
  split; [exact Hkeyed|]. by rewrite <- keyed_keys.
Qed.

(** C3. On a reachable store, [create(value)] throws "String already
    exists" exactly when a record with the digest of [value] is stored, and
    then leaves the store as it was; otherwise it returns the new record,
    with the time of creation, and stores it under its digest after the
    records already there. *)
Theorem create_atomic (st : Storage.t) (value now : jsstring) :
  reachable toLowerCase sha256 st →
  let out := Storage.create toLowerCase sha256 value now st in
  ((∃ e, out.2 = inl e)
   ↔ ∃ stored, stored ∈ JSMap.values (Storage.strings st)
               ∧ digest stored = Props.sha256_hash (compute value))
  ∧ (∀ e, out.2 = inl e → e = Error "String already exists" ∧ out.1 = st)
  ∧ (∀ stored, out.2 = inr stored →
       stored = {| Stored.id := Props.sha256_hash (compute value);
                   Stored.value := value;
                   Stored.properties := compute value;
                   Stored.created_at := now |}
       ∧ Storage.strings out.1
         = Storage.strings st ++ [(Props.sha256_hash (compute value), stored)]
       ∧ Storage.get (Props.sha256_hash (compute value)) out.1 = Some stored).
Proof.
  intros [Hkeyed Hkeys]%reachable_keeps.
  assert (Hhas : JSMap.has (Props.sha256_hash (compute value)) (Storage.strings st) = true
                 ↔ ∃ stored, stored ∈ JSMap.values (Storage.strings st)
                             ∧ digest stored = Props.sha256_hash (compute value)).
  { rewrite map_has_keys, keyed_keys by done.
    rewrite list_elem_of_fmap. naive_solver. }
  unfold Storage.create.
  destruct (JSMap.has _ _) eqn:Hpresent; cbn [fst snd].
  - split_and!.
    + split; [intros _; by apply Hhas|eauto].
    + by intros e [= <-].
    + done.
  - assert (Hnew : Props.sha256_hash (compute value) ∉ JSMap.keys (Storage.strings st)).
    { intros Hin%map_has_keys. congruence. }
    split_and!.
    + split; [by intros [e ?]|]. intros Hex%Hhas. done.
    + done.
    + intros stored [= <-]. split_and!; [done|by apply map_set_new|].
      unfold Storage.get. cbn [Storage.strings].
      rewrite map_get_set. by rewrite decide_True.
Qed.

(** C7. [list(filters)] returns the stored records, in the order of the
    store, that satisfy every filter present in the set; absent filters
    do not constrain, so the empty set matches every record; [count] is the
    number of records returned; a set with [min_length] 5 and [max_length] 3
    matches none. *)
Theorem list_conjunction :
  (∀ filters st,
     data (Storage.list filters st)
     = filter (satisfies filters) (JSMap.values (Storage.strings st))
     ∧ count (Storage.list filters st)
       = Z.of_nat (length (data (Storage.list filters st)))
     ∧ filters_applied (Storage.list filters st) = filters)
  ∧ (∀ stored, satisfies Filters.empty stored)
  ∧ (∀ st, data (Storage.list Filters.empty st) = JSMap.values (Storage.strings st))
  ∧ (∀ st pal words char,
       let filters := Filters.mk pal (Some (Num 5)) (Some (Num 3)) words char in
       data (Storage.list filters st) = [] ∧ count (Storage.list filters st) = 0).
Proof.
  assert (Hdata : ∀ filters st,
    data (Storage.list filters st)
    = filter (satisfies filters) (JSMap.values (Storage.strings st))).
  { intros filters st. unfold Storage.list. simpl. by rewrite list_loop_filter. }
  split_and!.
  - intros filters st. split_and!; [apply Hdata|done|done].
  - intros stored. by repeat split.
  - intros st. rewrite Hdata. apply filter_all. intros stored. by repeat split.
  - intros st pal words char filters.
    assert (Hnone : data (Storage.list filters st) = []).
    { rewrite Hdata. apply filter_none.
      intros stored (_ & Hlo & Hhi & _). simpl in Hlo, Hhi. lia. }
    split; [done|].
    change (count (Storage.list filters st))
      with (Z.of_nat (length (data (Storage.list filters st)))).
    by rewrite Hnone.
Qed.

Local Abbreviation interpret := (Interpreter.parseNaturalQuery toLowerCase).

(** C8, as amended.  [interpret(query)] returns the filter set the rules
    build from the lower-cased query, or [null] when no rule fires: the
    palindrome keywords set [is_palindrome] to true; "single word" and "one
    word" set [word_count] to 1; the first phrase "longer than N" or "more
    than N" sets [min_length] to N + 1 as long as N is below 2^53 (and to
    the double that [parseInt] and the addition yield in general);
    [contains_character] is "z" when the query has a "z", else "a" when it
    has "vowel", else the letter of the first phrase "letter X"; nothing sets
    [max_length]. *)
Theorem interpret_rules :
  (∀ query,
     let q := toLowerCase query in
     ∃ filters,
       interpret query
       = inr (if decide (filters = Filters.empty) then None else Some filters)
       ∧ (occurs "palindromic" q ∨ occurs "palindrome" q →
          Filters.is_palindrome filters = Some true)
       ∧ (¬ (occurs "palindromic" q ∨ occurs "palindrome" q) →
          Filters.is_palindrome filters = None)
       ∧ (occurs "single word" q ∨ occurs "one word" q →
          Filters.word_count filters = Some (Num 1))
       ∧ (¬ (occurs "single word" q ∨ occurs "one word" q) →
          Filters.word_count filters = None)
       ∧ (∀ ds, firstPhrase lengthPhrase q ds →
            Filters.min_length filters
            = Some (JSNumber.succ (JSNumber.roundDouble (JSNumber.digitsValue ds)))
            ∧ (JSNumber.digitsValue ds < 2 ^ 53 →
               Filters.min_length filters = Some (Num (JSNumber.digitsValue ds + 1))))
       ∧ (noPhrase lengthPhrase q → Filters.min_length filters = None)
       ∧ (noPhrase lengthPhrase q ∨ ∃ ds, firstPhrase lengthPhrase q ds)
       ∧ Filters.max_length filters = None
       ∧ (occurs "z" q → Filters.contains_character filters = Some (js "z"))
       ∧ (¬ occurs "z" q → occurs "vowel" q →
          Filters.contains_character filters = Some (js "a"))
       ∧ (¬ occurs "z" q → ¬ occurs "vowel" q →
          ∀ x, firstPhrase letterPhrase q x →
               Filters.contains_character filters = Some x)
       ∧ (¬ occurs "z" q → ¬ occurs "vowel" q → noPhrase letterPhrase q →
          Filters.contains_character filters = None)
       ∧ (noPhrase letterPhrase q ∨ ∃ x, firstPhrase letterPhrase q x))
  ∧ interpret (js "all single word palindromic strings")
    = inr (Some (Filters.mk (Some true) None None (Some (Num 1)) None))
  ∧ interpret (js "strings longer than 5")
    = inr (Some (Filters.mk None (Some (Num 6)) None None None))
  ∧ interpret (js "gibberish") = inr None.
Proof.
  split_and!.
  - intros query q. exists (Interpreter.applyRules q).
    destruct (applyRules_fields q) as (Hpal & Hwords & Hmin & Hmax & Hchar).
    destruct (search_firstPhrase Interpreter.lengthPattern Interpreter.firstCapture
                lengthPhrase q lengthPattern_phrase) as [Hlen_first Hlen_none].
    destruct (search_firstPhrase Interpreter.letterPattern id
                letterPhrase q letterPattern_phrase) as [Hlet_first Hlet_none].
    split_and!.
    + unfold Interpreter.parseNaturalQuery. by apply finish_without_max.
    + rewrite Hpal, <- !includes_occurs, <- orb_true_iff. by intros ->.
    + rewrite Hpal, <- !includes_occurs, <- orb_true_iff. by intros ->%not_true_is_false.
    + rewrite Hwords, <- !includes_occurs, <- orb_true_iff. by intros ->.
    + rewrite Hwords, <- !includes_occurs, <- orb_true_iff. by intros ->%not_true_is_false.
    + intros ds Hfirst.
      assert (Hds : Forall (λ c, JSString.isDigit c = true) ds).
      { destruct Hfirst as (_ & rest & _ & (? & ? & _ & _ & _ & Hds & _) & _). done. }
      apply Hlen_first in Hfirst as (m & Hm & <-). rewrite Hmin, Hm.
      split; [by rewrite parseInt_digits|].
      intros Hsmall. by rewrite succ_parseInt_exact.
    + intros Hno%Hlen_none. by rewrite Hmin, Hno.
    + destruct (JSString.search Interpreter.lengthPattern q) as [m|] eqn:Hm.
      * right. exists (Interpreter.firstCapture m). apply Hlen_first. eauto.
      * left. by apply Hlen_none.
    + done.
    + rewrite Hchar, <- includes_occurs. by intros ->.
    + rewrite Hchar, <- !includes_occurs. by intros ->%not_true_is_false ->.
    + rewrite Hchar, <- !includes_occurs.
      intros ->%not_true_is_false ->%not_true_is_false x (m & Hm & <-)%Hlet_first.
      done.
    + rewrite Hchar, <- !includes_occurs.
      intros ->%not_true_is_false ->%not_true_is_false Hno%Hlet_none. done.
    + destruct (JSString.search Interpreter.letterPattern q) as [m|] eqn:Hm.
      * right. exists m. apply Hlet_first. eauto.
      * left. by apply Hlet_none.
  - unfold Interpreter.parseNaturalQuery. by rewrite toLowerCase_ascii.
  - unfold Interpreter.parseNaturalQuery. by rewrite toLowerCase_ascii.
  - unfold Interpreter.parseNaturalQuery. by rewrite toLowerCase_ascii.
Qed.

(** C9, as amended.  The check of contradictory bounds throws on a filter
    set with [min_length] 10 and [max_length] 3, and in general when both
    bounds are present, not 0, and [min_length] is above [max_length]; but
    no rule sets [max_length], so [interpret] throws on no query. *)
Theorem conflict_check_unreached :
  (∀ pal words char,
     Interpreter.finish (Filters.mk pal (Some (Num 10)) (Some (Num 3)) words char)
     = inl (Error "Conflicting filters"))
  ∧ (∀ filters,
       Interpreter.conflicting filters = true
       ↔ ∃ lo hi,
           Filters.min_length filters = Some lo ∧ Filters.max_length filters = Some hi
           ∧ lo ≠ Num 0 ∧ hi ≠ Num 0 ∧ ¬ numLe lo hi)
  ∧ (∀ query,
       Filters.max_length (Interpreter.applyRules (toLowerCase query)) = None
       ∧ ∀ e, interpret query ≠ inl e).
Proof.
  split_and!.
  - intros pal words char. unfold Interpreter.finish.
    replace (Filters.keysLength _ =? 0)%nat with false
      by (by destruct pal, words, char).
    done.
  - intros filters. unfold Interpreter.conflicting, JSNumber.truthy.
    destruct (Filters.min_length filters) as [lo|], (Filters.max_length filters) as [hi|];
      [|naive_solver..].
    rewrite !andb_true_iff, !negb_true_iff, !strict_neqb_number, ltb_true_numLe.
    naive_solver.
  - intros query. split; [apply applyRules_max_length|].
    intros e. unfold Interpreter.parseNaturalQuery.
    destruct (finish_without_max _ (applyRules_max_length (toLowerCase query))) as [_ ->].
    done.
Qed.

(** C10. [interpret] returns [null] or a filter set on every query and
    never throws: no rule sets [max_length], so the test of contradictory
    bounds is false on every filter set the rules build. *)
Theorem interpret_never_throws (query : jsstring) :
  (interpret query = inr None ∨ ∃ filters, interpret query = inr (Some filters))
  ∧ (∀ e, interpret query ≠ inl e)
  ∧ Filters.max_length (Interpreter.applyRules (toLowerCase query)) = None
  ∧ Interpreter.conflicting (Interpreter.applyRules (toLowerCase query)) = false.
Proof.
  pose proof (applyRules_max_length (toLowerCase query)) as Hmax.
  destruct (finish_without_max _ Hmax) as [Hconflict Hfinish].
  unfold Interpreter.parseNaturalQuery. rewrite Hfinish.
  split_and!; [|done..]. case_decide; eauto.
Qed.

(** The response of the natural-language handler to a query the
    interpreter can parse: status 200 with the listing, the original query
    and the parsed filters. *)
Lemma natural_language_handler_parsed (query : jsstring) (parsed : Filters.t)
    (storage : Storage.t) :
  query ≠ [] →
  interpret query = inr (Some parsed) →
  Router.getStringsFilterByNaturalLanguageHandler toLowerCase
    (Some (QueryString query)) storage
  = Response 200 (JsonInterpreted (Storage.list parsed storage) query parsed).
Proof.
  intros Hne Hparsed. unfold Router.getStringsFilterByNaturalLanguageHandler.
  destruct query; [done|]. by rewrite Hparsed.
Qed.

(** C1. A GET request for /strings/filter-by-natural-language, whatever its
    query string, is dispatched to the handler of /strings/:value, which is
    registered first, with "filter-by-natural-language" as the value; the
    response is 404, or 200 with the record stored for that value, and on
    the empty store it is 404.  No request at all is dispatched to the
    natural-language handler. *)
Theorem natural_language_route_shadowed (query : list (jsstring * jsstring))
    (storage : Storage.t) :
  let req := Request GET [js "strings"; js "filter-by-natural-language"] query in
  let res := Router.getStringsValueHandler toLowerCase sha256
               (js "filter-by-natural-language") storage in
  Router.dispatch Router.routes req
  = Some (getStringsValue, [("value"%string, js "filter-by-natural-language")])
  ∧ (res = Response 404 (JsonError "String does not exist in the system")
     ∨ ∃ stored, res = Response 200 (JsonStored stored))
  ∧ Router.getStringsValueHandler toLowerCase sha256
      (js "filter-by-natural-language") Storage.new
    = Response 404 (JsonError "String does not exist in the system")
  ∧ (∀ req' params,
       Router.dispatch Router.routes req'
       ≠ Some (getStringsFilterByNaturalLanguage, params)).
Proof.
  split_and!.
  - done.
  - unfold Router.getStringsValueHandler.
    destruct (Storage.get _ storage) as [stored|]; eauto.
  - done.
  - intros [m path query'] params. unfold Router.routes, Router.dispatch.
    cbn [req_method req_path].
    destruct m; route_methods;
      destruct path as [|s1 [|s2 [|s3 [|s4 path]]]]; cbn [Router.matchPath];
      repeat route_case; try done.
Qed.

End Properties.

(** "Level" under the ASCII instance of [toLowerCase]. *)
Lemma is_palindrome_reversal_witness :
  lowersAscii asciiLowerCase
  ∧ Props.is_palindrome
      (Storage.computeProperties asciiLowerCase (λ value, value) (js "Level")) = true.
Proof.
  split.
  - intros s _. reflexivity.
  - apply (is_palindrome_reversal asciiLowerCase (λ value, value)).
    intros s _. reflexivity.
Defined.


(** A store with one record, under the ASCII instance of [toLowerCase] and
    the identity as a stand-in for the digest. *)
Lemma store_content_addressed_witness :
  let st := (Storage.create asciiLowerCase (λ value, value)
               (js "racecar") (js "2025-10-20T10:00:00.000Z") Storage.new).1 in
  reachable asciiLowerCase (λ value, value) st
  ∧ NoDup (digest <$> JSMap.values (Storage.strings st)).
Proof.
  assert (Hst : reachable asciiLowerCase (λ value, value)
                  (Storage.create asciiLowerCase (λ value, value)
                     (js "racecar") (js "2025-10-20T10:00:00.000Z") Storage.new).1).
  { apply rtc_once. constructor. }
  split; [exact Hst|].
  exact (proj2 (store_content_addressed asciiLowerCase (λ value, value) _ Hst)).
Defined.

(** Creating "racecar" a second time throws and leaves the store as it was. *)
Lemma create_atomic_witness :
  let st := (Storage.create asciiLowerCase (λ value, value)
               (js "racecar") (js "2025-10-20T10:00:00.000Z") Storage.new).1 in
  reachable asciiLowerCase (λ value, value) st
  ∧ (Storage.create asciiLowerCase (λ value, value)
       (js "racecar") (js "2025-10-20T10:05:00.000Z") st).1 = st.
Proof.
  assert (Hst : reachable asciiLowerCase (λ value, value)
                  (Storage.create asciiLowerCase (λ value, value)
                     (js "racecar") (js "2025-10-20T10:00:00.000Z") Storage.new).1).
  { apply rtc_once. constructor. }
  split; [exact Hst|].
  destruct (create_atomic asciiLowerCase (λ value, value) _
              (js "racecar") (js "2025-10-20T10:05:00.000Z") Hst) as (_ & Hthrow & _).
  exact (proj2 (Hthrow (Error "String already exists") eq_refl)).
Defined.

(** " hello  world " holds two tokens. *)
Lemma word_count_tokens_witness :
  tokenized (js " hello  world ") [js "hello"; js "world"]
  ∧ Props.word_count
      (Storage.computeProperties asciiLowerCase (λ value, value) (js " hello  world "))
    = 2.
Proof.
  assert (Htok : tokenized (js " hello  world ") [js "hello"; js "world"]).
  { exists (js " "), (js "hello" ++ js "  " ++ js "world"), (js " ").
    split_and!; [done|by repeat constructor..|].
    apply interleaved_cons; [done|by repeat constructor|done|by repeat constructor|].
    apply interleaved_one; [done|by repeat constructor]. }
  split; [exact Htok|].
  destruct (word_count_tokens asciiLowerCase (λ value, value)) as (Hcount & _).
  exact (proj2 (Hcount _ _ Htok)).
Defined.

(** The characters of "aabb" are its code units. *)
Lemma character_frequency_counts_witness :
  hasSurrogatePair (js "aabb") = false
  ∧ JSString.codePoints (js "aabb") = JSString.splitUnits (js "aabb").
Proof.
  split; [reflexivity|].
  destruct (character_frequency_counts asciiLowerCase (λ value, value))
    as (_ & _ & Hunits & _).
  exact (proj1 (Hunits (js "aabb") eq_refl)).
Defined.

(** C6 fails on a surrogate pair when a character is a code unit, as it is
    for [length]: the value of the two code units D83D DE00 has length 2
    and two distinct code units, but [unique_characters] is 1 and the
    frequency map has the one key of two code units, none for either code
    unit. *)
Lemma frequency_counts_surrogate_pair :
  let value := [55357; 56832]%N in
  let p := Storage.computeProperties asciiLowerCase (λ value, value) value in
  Props.length p = 2
  ∧ length (remove_dups value) = 2%nat
  ∧ Props.unique_characters p = 1
  ∧ Props.character_frequency_map p = {[ value := 1 ]}
  ∧ Props.character_frequency_map p !! [55357%N] = None
  ∧ Props.character_frequency_map p !! [56832%N] = None.
Proof. by split_and!. Qed.

(** "strings longer than 5" under the ASCII instance of [toLowerCase]. *)
Lemma interpret_rules_witness :
  lowersAscii asciiLowerCase
  ∧ Interpreter.parseNaturalQuery asciiLowerCase (js "strings longer than 5")
    = inr (Some (Filters.mk None (Some (Num 6)) None None None)).
Proof.
  assert (Hlower : lowersAscii asciiLowerCase) by (intros s _; reflexivity).
  split; [exact Hlower|].
  destruct (interpret_rules asciiLowerCase Hlower) as (_ & _ & Hlonger & _).
  exact Hlonger.
Defined.

(** C8 fails from N = 2^53 on: "longer than 9007199254740992" sets
    [min_length] to 9007199254740992, which is N and not N + 1, the sum
    being rounded to the nearest double. *)
Lemma interpret_rounds_large_number :
  Interpreter.parseNaturalQuery asciiLowerCase (js "strings longer than 9007199254740992")
  = inr (Some (Filters.mk None (Some (Num 9007199254740992)) None None None))
  ∧ firstPhrase lengthPhrase
      (asciiLowerCase (js "strings longer than 9007199254740992"))
      (js "9007199254740992")
  ∧ JSNumber.digitsValue (js "9007199254740992") + 1 = 9007199254740993
  ∧ Num 9007199254740992 ≠ Num (JSNumber.digitsValue (js "9007199254740992") + 1).
Proof.
  split_and!.
  - by vm_compute.
  - apply (search_firstPhrase Interpreter.lengthPattern Interpreter.firstCapture
             lengthPhrase _ lengthPattern_phrase).
    exists (inl (js "9007199254740992")). by vm_compute.
  - by vm_compute.
  - by vm_compute.
Qed.

(** C9 fails: there is no query on which [interpret] throws, whatever the
    case mapping. *)
Lemma interpret_throws_nowhere :
  ¬ ∃ (lower : jsstring → jsstring) (query : jsstring) (e : exn),
      Interpreter.parseNaturalQuery lower query = inl e.
Proof.
  intros (lower & query & e & Hthrow). unfold Interpreter.parseNaturalQuery in Hthrow.
  destruct (finish_without_max _ (applyRules_max_length (lower query))) as [_ Hfinish].
  rewrite Hfinish in Hthrow. done.
Qed.

(** * Further properties *)

(** ** More on the built-in [Map] *)

Section MoreMapFacts.
Context {V : Type}.
Implicit Types (m : list (jsstring * V)) (k : jsstring) (v : V).

Lemma map_has_get m k : JSMap.has k m = true ↔ is_Some (JSMap.get k m).
Proof. unfold JSMap.has. destruct (JSMap.get k m); split; (done || eauto || by intros [??]). Qed.

Lemma map_has_false m k : JSMap.has k m = false ↔ JSMap.get k m = None.
Proof. unfold JSMap.has. by destruct (JSMap.get k m). Qed.

Lemma map_delete_absent m k : JSMap.get k m = None → JSMap.delete k m = m.
Proof.
  induction m as [|[k1 v1] m IH]; simpl; [done|].
  case_bool_decide; [done|]. intros Hk. by rewrite IH.
Qed.

Lemma map_get_delete m k k' :
  NoDup (JSMap.keys m) →
  JSMap.get k' (JSMap.delete k m) = if decide (k = k') then None else JSMap.get k' m.
Proof.
  unfold JSMap.keys. induction m as [|[k1 v1] m IH]; simpl; intros Hm.
  - by case_decide.
  - apply NoDup_cons in Hm as [Hk1 Hm].
    case_bool_decide as H1; simpl.
    + subst k1. case_decide as H2.
      * subst k'. by apply map_get_None.
      * by rewrite bool_decide_eq_false_2.
    + rewrite IH by done. case_bool_decide; case_decide; congruence.
Qed.

Lemma map_elem_get m k v : NoDup (JSMap.keys m) → (k, v) ∈ m → JSMap.get k m = Some v.
Proof.
  unfold JSMap.keys. induction m as [|[k' v'] m IH]; simpl; [by intros _ ?%elem_of_nil|].
  intros [Hk' Hm]%NoDup_cons [[= -> ->]|Hin]%elem_of_cons.
  - by rewrite bool_decide_eq_true_2.
  - rewrite bool_decide_eq_false_2; [auto|].
    intros ->. apply Hk'. apply list_elem_of_fmap. by exists (k, v).
Qed.

(** The sum of the values after [set]. *)
Lemma totalCount_set (m : list (jsstring * Z)) k (n : Z) :
  totalCount (JSMap.set k n m) = totalCount m - default 0 (JSMap.get k m) + n.
Proof.
  induction m as [|[k1 n1] m IH]; simpl; [lia|].
  case_bool_decide; simpl; lia.
Qed.

(** Deleting the key that was set last on a map without it gives the map
    back. *)
Lemma map_delete_set_new m k v :
  JSMap.get k m = None → JSMap.delete k (JSMap.set k v m) = m.
Proof.
  induction m as [|[k1 v1] m IH]; simpl.
  - by rewrite bool_decide_eq_true_2.
  - case_bool_decide as H1; [done|]. intros Hk. simpl.
    rewrite bool_decide_eq_false_2 by done. by rewrite IH.
Qed.
End MoreMapFacts.

Section FurtherProperties.
Variable toLowerCase : jsstring → jsstring.
Variable sha256 : jsstring → jsstring.

Local Abbreviation compute := (Storage.computeProperties toLowerCase sha256).
Local Abbreviation create := (Storage.create toLowerCase sha256).
Local Abbreviation interpret := (Interpreter.parseNaturalQuery toLowerCase).

(** ** The store *)

(** The record [create(value)] builds at the clock reading [now]. *)
Local Abbreviation record value now :=
  {| Stored.id := sha256 value;
     Stored.value := value;
     Stored.properties := compute value;
     Stored.created_at := now |}.

Lemma create_new (value now : jsstring) (st : Storage.t) :
  Storage.get (sha256 value) st = None →
  create value now st
  = (Storage.mk (Storage.strings st ++ [(sha256 value, record value now)]),
     inr (record value now)).
Proof.
  intros Hget. unfold Storage.create, Storage.get in *. cbn [Props.sha256_hash
    Storage.computeProperties].
  rewrite (proj2 (map_has_false _ _) Hget).
  rewrite map_set_new by (by apply map_get_None). done.
Qed.

Lemma create_old (value now : jsstring) (st : Storage.t) :
  is_Some (Storage.get (sha256 value) st) →
  create value now st = (st, inl (Error "String already exists")).
Proof.
  intros Hget. unfold Storage.create, Storage.get in *. cbn [Props.sha256_hash
    Storage.computeProperties].
  by rewrite (proj2 (map_has_get _ _) Hget).
Qed.

(** An entry of the store holds the record [create] built from its value,
    under the digest of that value. *)
Local Abbreviation built :=
  (λ entry : jsstring * Stored.t,
     entry.1 = sha256 (Stored.value entry.2)
     ∧ entry.2 = record (Stored.value entry.2) (Stored.created_at entry.2)).

Lemma reachable_built (st : Storage.t) :
  reachable toLowerCase sha256 st → Forall built (Storage.strings st).
Proof.
  unfold reachable. revert st. apply rtc_ind_r.
  - constructor.
  - intros st st' _ Hstep IH. destruct Hstep as [value now st|hash st].
    + destruct (Storage.get (sha256 value) st) eqn:Hget.
      * by rewrite create_old.
      * rewrite create_new by done. simpl.
        apply Forall_app. split; [done|]. by apply Forall_singleton.
    + simpl. rewrite Forall_forall in IH |- *. intros e He. apply IH.
      eapply elem_of_sublist; [exact He|apply map_delete_sublist].
Qed.

(** X1. In every store that [create] and [delete] calls lead to from the
    empty store, each record is stored under the digest of its own value,
    and its [id] and [properties] are those [computeProperties] gives for
    that value: nothing else ever writes a record. *)
Theorem stored_records_computed (st : Storage.t) :
  reachable toLowerCase sha256 st →
  Forall (λ entry,
            entry.1 = sha256 (Stored.value entry.2)
            ∧ Stored.id entry.2 = sha256 (Stored.value entry.2)
            ∧ Stored.properties entry.2 = compute (Stored.value entry.2))
         (Storage.strings st).
Proof.
  intros Hst%reachable_built. eapply Forall_impl; [exact Hst|].
  intros [k stored] [Hk Hrecord]. simpl in *.
  split_and!; [done|by rewrite Hrecord..].
Qed.

(** X2. On a reachable store, [delete(hash)] returns true exactly when a
    record is stored under [hash]; afterwards nothing is stored under
    [hash], every other key holds what it held, the remaining records keep
    their order, and a call that returns false leaves the store as it is. *)
Theorem delete_removes (st : Storage.t) (hash : jsstring) :
  reachable toLowerCase sha256 st →
  let out := Storage.delete hash st in
  (out.2 = true ↔ is_Some (Storage.get hash st))
  ∧ Storage.get hash out.1 = None
  ∧ (∀ h, h ≠ hash → Storage.get h out.1 = Storage.get h st)
  ∧ (out.2 = false → out.1 = st)
  ∧ sublist (JSMap.values (Storage.strings out.1)) (JSMap.values (Storage.strings st)).
Proof.
  intros [_ Hkeys]%reachable_keeps. unfold Storage.delete, Storage.get. simpl.
  split_and!.
  - apply map_has_get.
  - rewrite map_get_delete by done. by rewrite decide_True.
  - intros h Hne. rewrite map_get_delete by done. by rewrite decide_False.
  - intros Habsent%map_has_false. rewrite map_delete_absent by done. by destruct st.
  - unfold JSMap.values. apply fmap_sublist, map_delete_sublist.
Qed.

(** X3. Creating the same value twice in a row: whatever the store and the
    outcome of the first call, the second call throws "String already
    exists" and leaves the store as the first call left it. *)
Theorem create_twice (st : Storage.t) (value now later : jsstring) :
  create value later (create value now st).1
  = ((create value now st).1, inl (Error "String already exists")).
Proof.
  apply create_old.
  destruct (Storage.get (sha256 value) st) eqn:Hget.
  - rewrite create_old by done. simpl. by rewrite Hget.
  - rewrite create_new by done. unfold Storage.get. simpl.
    rewrite <- map_set_new by (by apply map_get_None).
    rewrite map_get_set, decide_True by done. done.
Qed.

(** X4. On a reachable store, deleting the digest of a value makes room for
    it: the next [create] of that value succeeds and stores the new record
    last. *)
Theorem delete_then_create (st : Storage.t) (value now : jsstring) :
  reachable toLowerCase sha256 st →
  let st1 := (Storage.delete (sha256 value) st).1 in
  create value now st1
  = (Storage.mk (Storage.strings st1 ++ [(sha256 value, record value now)]),
     inr (record value now)).
Proof.
  intros [_ Hkeys]%reachable_keeps st1. apply create_new.
  unfold Storage.get. simpl. rewrite map_get_delete by done. by rewrite decide_True.
Qed.

Lemma create_then_delete_store (st : Storage.t) (value now : jsstring) :
  Storage.get (sha256 value) st = None →
  Storage.delete (sha256 value) (create value now st).1 = (st, true).
Proof.
  intros Hget. rewrite create_new by done. unfold Storage.delete. simpl.
  rewrite <- map_set_new by (by apply map_get_None).
  rewrite map_delete_set_new by done.
  replace (JSMap.has _ _) with true.
  - by destruct st.
  - symmetry. apply map_has_get. rewrite map_get_set, decide_True by done. eauto.
Qed.

(** X5. When no record has the digest of [value], [create(value)] followed
    by [delete] of that digest returns true and gives back the very store
    the two calls started from. *)
Theorem create_then_delete (st : Storage.t) (value now : jsstring) :
  Storage.get (sha256 value) st = None →
  Storage.delete (sha256 value) (create value now st).1 = (st, true).
Proof. apply create_then_delete_store. Qed.

(** X6. After a successful [create], [list] returns what it returned before,
    followed by the new record when that record satisfies the filters. *)
Theorem list_after_create (st : Storage.t) (value now : jsstring) (filters : Filters.t) :
  Storage.get (sha256 value) st = None →
  data (Storage.list filters (create value now st).1)
  = data (Storage.list filters st) ++ filter (satisfies filters) [record value now].
Proof.
  intros Hget. rewrite create_new by done. unfold Storage.list. simpl.
  rewrite !list_loop_filter. simpl. unfold JSMap.values.
  rewrite fmap_app, filter_app. done.
Qed.

(** X7. On a reachable store, the filters speak of the stored values: a
    record [list] returns is the one [get] finds under the digest of its
    value, and that value has the length, the words, the palindrome status
    and the character the filters present ask for. *)
Theorem listed_records_describe_values (st : Storage.t) (filters : Filters.t)
    (stored : Stored.t) :
  reachable toLowerCase sha256 st →
  stored ∈ data (Storage.list filters st) →
  let value := Stored.value stored in
  Storage.get (sha256 value) st = Some stored
  ∧ whenPresent (Filters.is_palindrome filters)
      (λ b, b = true ↔ toLowerCase value = toLowerCase (rev value))
  ∧ whenPresent (Filters.min_length filters)
      (λ n, numLe n (Num (Z.of_nat (length value))))
  ∧ whenPresent (Filters.max_length filters)
      (λ n, numLe (Num (Z.of_nat (length value))) n)
  ∧ whenPresent (Filters.word_count filters)
      (λ n, n = Num (Z.of_nat (length (JSString.splitWhiteSpace (JSString.trim value)))))
  ∧ whenPresent (Filters.contains_character filters)
      (λ c, c ∈ JSString.codePoints value).
Proof.
  intros Hst Hin value.
  pose proof (reachable_built st Hst) as Hbuilt.
  destruct (reachable_keeps toLowerCase sha256 st Hst) as [_ Hkeys].
  unfold Storage.list in Hin. simpl in Hin. rewrite list_loop_filter in Hin.
  simpl in Hin. apply list_elem_of_filter in Hin as [Hsat Hin].
  apply list_elem_of_fmap in Hin as ([k stored'] & Heq & Hentry). simpl in Heq. subst stored'.
  rewrite Forall_forall in Hbuilt. destruct (Hbuilt _ Hentry) as [Hk Hrecord].
  simpl in Hk, Hrecord. fold value in Hk, Hrecord.
  assert (Hprops : Stored.properties stored = compute value) by (by rewrite Hrecord).
  destruct Hsat as (Hpal & Hlo & Hhi & Hwords & Hchar). rewrite Hprops in *.
  split_and!.
  - unfold Storage.get. apply map_elem_get; [done|]. by rewrite <- Hk.
  - destruct (Filters.is_palindrome filters) as [b|]; [|done]. simpl in *.
    rewrite join_reverse_split in Hpal. subst b. apply bool_decide_eq_true.
  - by destruct (Filters.min_length filters).
  - by destruct (Filters.max_length filters).
  - destruct (Filters.word_count filters); [|done]. simpl in *. done.
  - destruct (Filters.contains_character filters) as [c|]; [|done]. simpl in *.
    rewrite fromEntries_lookup in Hchar by (apply (countChar_NoDup _ []); constructor).
    rewrite charFrequencies_get in Hchar. case_decide; [done|]. by destruct Hchar.
Qed.

(** ** The properties of a string *)

Lemma splitLoop_nonempty (s cur : jsstring) (sep : bool) :
  (1 ≤ length (JSString.splitLoop sep cur s))%nat.
Proof.
  revert sep cur. induction s as [|c s IH]; intros sep cur; simpl; [lia|].
  destruct (JSString.isWhiteSpace c), sep; simpl; auto with lia.
Qed.

Lemma interleaved_length (s : jsstring) (toks : list jsstring) :
  interleaved s toks → (length toks ≤ length s)%nat.
Proof.
  induction 1 as [tok Hne _|tok gap s toks Hne _ _ _ _ IH]; simpl.
  - destruct tok; [done|simpl; lia].
  - rewrite !length_app. destruct tok; [done|simpl; lia].
Qed.

(** X8. [word_count] is at least 1 on every string, the empty one too, and
    at most the length of the string once that is not 0. *)
Theorem word_count_bounds (value : jsstring) :
  let p := Storage.computeProperties toLowerCase sha256 value in
  1 ≤ Props.word_count p ∧ Props.word_count p ≤ Z.max 1 (Props.length p).
Proof.
  split.
  - simpl. unfold JSString.splitWhiteSpace.
    pose proof (splitLoop_nonempty (JSString.trim value) [] false). lia.
  - simpl. destruct (blank_or_tokenized value)
      as [Hblank|(toks & before & s & after & -> & Hb & Ha & Hs)].
    + rewrite trim_blank by done. simpl. lia.
    + rewrite (trim_interleaved _ _ _ toks) by done.
      unfold JSString.splitWhiteSpace. rewrite (splitLoop_interleaved _ toks) by done.
      pose proof (interleaved_length _ _ Hs) as Hlen.
      destruct (interleaved_tokens _ _ Hs) as (t & ts & ->).
      rewrite !length_app. simpl in *. lia.
Qed.

Lemma codePoints_length (value : jsstring) :
  (length (JSString.codePoints value) ≤ length value)%nat.
Proof.
  assert (Hgen : ∀ n (s : jsstring),
    (length s ≤ n)%nat → (length (JSString.codePoints s) ≤ length s)%nat).
  { induction n as [|n IH]; intros s Hs.
    - destruct s; [done|simpl in Hs; lia].
    - destruct s as [|c [|d s]]; [done|simpl; lia|].
      change (JSString.codePoints (c :: d :: s))
        with (if JSString.isHighSurrogate c && JSString.isLowSurrogate d
              then [c; d] :: JSString.codePoints s
              else [c] :: JSString.codePoints (d :: s)).
      simpl in Hs.
      destruct (JSString.isHighSurrogate c && JSString.isLowSurrogate d).
      + pose proof (IH s ltac:(lia)). simpl. lia.
      + pose proof (IH (d :: s) ltac:(simpl; lia)). simpl in *. lia. }
  by apply (Hgen (length value)).
Qed.

Lemma remove_dups_shorter (chars : list jsstring) :
  (length (remove_dups chars) ≤ length chars)%nat.
Proof.
  induction chars as [|c chars IH]; simpl; [done|]. case_decide; simpl; lia.
Qed.

Lemma totalCount_countChar (chars : list jsstring) (freq : list (jsstring * Z)) :
  totalCount (fold_left Storage.countChar chars freq)
  = totalCount freq + Z.of_nat (length chars).
Proof.
  revert freq. induction chars as [|c chars IH]; intros freq; simpl; [lia|].
  rewrite IH. unfold Storage.countChar. rewrite totalCount_set. lia.
Qed.

Lemma totalCount_permutation (l k : list (jsstring * Z)) :
  l ≡ₚ k → totalCount l = totalCount k.
Proof.
  induction 1; simpl; lia.
Qed.

Lemma fromEntries_to_list {V} (m : list (jsstring * V)) :
  NoDup (JSMap.keys m) → map_to_list (fromEntries m) ≡ₚ m.
Proof.
  intros Hm.
  assert (fromEntries m = list_to_map m) as ->.
  { apply map_eq. intros k. rewrite fromEntries_lookup by done.
    destruct (JSMap.get k m) as [v|] eqn:Hget.
    - symmetry. apply elem_of_list_to_map; [done|].
      clear Hm. induction m as [|[k1 v1] m IH]; [done|]. simpl in Hget.
      case_bool_decide; [injection Hget as <-; subst; left|right; auto].
    - symmetry. apply not_elem_of_list_to_map. by apply map_get_None. }
  by apply map_to_list_to_map.
Qed.

(** X9. The frequency table accounts for every character once: its counts
    are at least 1 and add up to the number of characters of the value,
    which is at most [length]; so [unique_characters] is at most [length]
    too. *)
Theorem frequency_totals (value : jsstring) :
  let p := compute value in
  (∀ char n, Props.character_frequency_map p !! char = Some n → 1 ≤ n)
  ∧ totalCount (map_to_list (Props.character_frequency_map p))
    = Z.of_nat (length (JSString.codePoints value))
  ∧ Z.of_nat (length (JSString.codePoints value)) ≤ Props.length p
  ∧ 0 ≤ Props.unique_characters p
  ∧ Props.unique_characters p ≤ Z.of_nat (length (JSString.codePoints value)).
Proof.
  assert (Hkeys : NoDup (JSMap.keys (Storage.charFrequencies value)))
    by (apply (countChar_NoDup _ []); constructor).
  simpl. split_and!.
  - intros char n. rewrite fromEntries_lookup, charFrequencies_get by done.
    case_decide as Hin; [|done]. intros [= <-].
    pose proof (occurrences_zero char (JSString.codePoints value)) as Hzero.
    destruct (occurrences char (JSString.codePoints value)); [|lia].
    exfalso. by apply Hzero.
  - rewrite (totalCount_permutation _ _ (fromEntries_to_list _ Hkeys)).
    unfold Storage.charFrequencies. rewrite totalCount_countChar. simpl. lia.
  - pose proof (codePoints_length value). lia.
  - unfold JSMap.size. lia.
  - rewrite charFrequencies_size.
    apply inj_le, remove_dups_shorter.
Qed.

(** X10. A value is a palindrome exactly when its reversal is one, and a
    value of at most one code unit is a palindrome. *)
Theorem is_palindrome_reverse (value : jsstring) :
  let isPalindrome v :=
    Props.is_palindrome (Storage.computeProperties toLowerCase sha256 v) in
  isPalindrome (rev value) = isPalindrome value
  ∧ ((length value ≤ 1)%nat → isPalindrome value = true).
Proof.
  simpl. rewrite !join_reverse_split, rev_involutive. split.
  - apply bool_decide_ext. split; intros ->; done.
  - intros Hlen. destruct value as [|c [|d value]]; simpl in *; [..|lia];
      by apply bool_decide_eq_true.
Qed.

(** ** The interpreter *)

Lemma digitsValue_nonneg (ds : jsstring) :
  Forall (λ c, JSString.isDigit c = true) ds → 0 ≤ JSNumber.digitsValue ds.
Proof.
  unfold JSNumber.digitsValue.
  assert (Hgen : ∀ acc, 0 ≤ acc →
    Forall (λ c, JSString.isDigit c = true) ds →
    0 ≤ fold_left (λ acc c, 10 * acc + JSNumber.digitValue c) ds acc).
  { induction ds as [|c ds IH]; intros acc Hacc Hds; simpl; [done|].
    apply Forall_cons in Hds as [Hc Hds]. apply IH; [|done].
    unfold JSString.isDigit in Hc. apply andb_true_iff in Hc as [Hlo _].
    apply N.leb_le in Hlo. unfold JSNumber.digitValue. lia. }
  by apply Hgen.
Qed.

(** Rounding keeps a number that is at least [k] at least [k], for [k] a
    small integer. *)
Lemma roundDouble_lower (k z : Z) :
  0 ≤ k ≤ 1 → k ≤ z → numLe (Num k) (JSNumber.roundDouble z).
Proof.
  intros Hk Hz. unfold JSNumber.roundDouble.
  destruct (Z.ltb_spec z (2 ^ 53)) as [|Hbig]; [done|].
  assert (53 ≤ Z.log2 z) as Hlog by (by apply Z.log2_le_pow2; lia).
  set (e := Z.log2 z - 52).
  assert (0 < 2 ^ e) as Hpow by (apply Z.pow_pos_nonneg; lia).
  assert (2 ^ e ≤ z) as Hle.
  { transitivity (2 ^ Z.log2 z); [apply Z.pow_le_mono_r; lia|].
    apply Z.log2_spec. lia. }
  assert (1 ≤ z / 2 ^ e) as Hq by (apply Z.div_le_lower_bound; lia).
  match goal with |- numLe _ (if ?t then _ else _) => destruct t end; [|done].
  simpl. repeat match goal with |- context [if ?t then _ else _] => destruct t end; nia.
Qed.

Lemma succ_parseInt_positive (ds : jsstring) :
  Forall (λ c, JSString.isDigit c = true) ds →
  numLe (Num 1) (JSNumber.succ (JSNumber.parseInt ds)).
Proof.
  intros Hds. rewrite parseInt_digits by done.
  pose proof (roundDouble_lower 0 (JSNumber.digitsValue ds) ltac:(lia)
                (digitsValue_nonneg ds Hds)) as Hround.
  destruct (JSNumber.roundDouble (JSNumber.digitsValue ds)) as [m|]; [|done].
  simpl in *. apply roundDouble_lower; lia.
Qed.

Lemma search_lengthPattern_digits (q : jsstring) (m : jsstring + jsstring) :
  JSString.search Interpreter.lengthPattern q = Some m →
  Forall (λ c, JSString.isDigit c = true) (Interpreter.firstCapture m).
Proof.
  intros (before & rest & _ & Hm & _)%search_Some.
  assert (lengthPhrase rest (Interpreter.firstCapture m)) as Hphrase
    by (apply lengthPattern_phrase; eauto).
  by destruct Hphrase as (? & ? & _ & _ & _ & Hds & _).
Qed.

Lemma search_letterPattern_letter (q x : jsstring) :
  JSString.search Interpreter.letterPattern q = Some x →
  ∃ u, x = [u] ∧ JSString.isLowerLetter u = true.
Proof.
  intros (before & rest & _ & Hm & _)%search_Some.
  assert (letterPhrase rest x) as (u & ? & _ & Hu & ->)
    by (apply letterPattern_phrase; eauto).
  eauto.
Qed.

(** X11. A filter set [parseNaturalQuery] returns is never empty, and its
    values are of a few kinds only: [is_palindrome] is true, [word_count]
    is 1, [min_length] is at least 1, [max_length] is absent, and
    [contains_character] is one letter from a to z. *)
Theorem interpret_result_shape (query : jsstring) (filters : Filters.t) :
  interpret query = inr (Some filters) →
  filters ≠ Filters.empty
  ∧ whenPresent (Filters.is_palindrome filters) (λ b, b = true)
  ∧ whenPresent (Filters.word_count filters) (λ n, n = Num 1)
  ∧ whenPresent (Filters.min_length filters) (λ n, numLe (Num 1) n)
  ∧ Filters.max_length filters = None
  ∧ whenPresent (Filters.contains_character filters)
      (λ c, ∃ u, c = [u] ∧ JSString.isLowerLetter u = true).
Proof.
  unfold Interpreter.parseNaturalQuery. generalize (toLowerCase query). intros q.
  destruct (finish_without_max _ (applyRules_max_length q)) as [_ ->].
  case_decide as Hempty; [done|]. intros [= Heq]. subst filters.
  destruct (applyRules_fields q) as (Hpal & Hwords & Hmin & Hmax & Hchar).
  split_and!; [done|..].
  - rewrite Hpal. by match goal with |- context [if ?t then _ else _] => destruct t end.
  - rewrite Hwords. by match goal with |- context [if ?t then _ else _] => destruct t end.
  - rewrite Hmin.
    destruct (JSString.search Interpreter.lengthPattern q) as [m|] eqn:Hm; [|done].
    simpl. apply succ_parseInt_positive. by eapply search_lengthPattern_digits.
  - done.
  - rewrite Hchar.
    destruct (JSString.includes q (js "z")); [simpl; by exists 122%N|].
    destruct (JSString.includes q (js "vowel")); [simpl; by exists 97%N|].
    destruct (JSString.search Interpreter.letterPattern q) as [x|] eqn:Hx; [|done].
    simpl. by eapply search_letterPattern_letter.
Qed.

(** X12. The handler of the natural-language route answers 422 exactly
    when the parameter [query] is not a string (an array or an object, as a
    repeated parameter gives), the TypeError of [toLowerCase] being caught;
    on a string it never answers 422: it answers 400 "Unable to parse
    natural language query" when the query is missing or empty or no rule
    fires, and otherwise 200 with the listing for the parsed filters, the
    query and the filters. *)
Theorem natural_language_handler_outcomes (query : option queryValue)
    (storage : Storage.t) :
  let res := Router.getStringsFilterByNaturalLanguageHandler toLowerCase query storage in
  let unparsable := Response 400 (JsonError "Unable to parse natural language query") in
  (status res = 422 ↔ query = Some QueryOther)
  ∧ match query with
    | Some QueryOther =>
        res = Response 422 (JsonError "Query parsed but resulted in conflicting filters")
    | None | Some (QueryString []) => res = unparsable
    | Some (QueryString q) =>
        (interpret q = inr None ∧ res = unparsable)
        ∨ (∃ parsed,
             interpret q = inr (Some parsed)
             ∧ res = Response 200 (JsonInterpreted (Storage.list parsed storage) q parsed))
    end.
Proof.
  unfold Router.getStringsFilterByNaturalLanguageHandler.
  destruct query as [[[|c q]|]|]; [by split|..|by split|by split].
  unfold Interpreter.parseNaturalQuery.
  destruct (finish_without_max _ (applyRules_max_length (toLowerCase (c :: q))))
    as [_ Hfinish].
  rewrite Hfinish. case_decide.
  - split; [done|]. by left.
  - split; [done|]. right. by eexists.
Qed.

(** ** The handlers *)

(** X13. [POST /strings]: a value that is not a string, or is the empty
    string, is answered 422 and the store is untouched; a string whose
    digest is stored is answered 409 and the store is untouched; any other
    string is answered 201 with its new record, which is stored last. *)
Theorem post_strings_outcomes (value : jsvalue) (now : jsstring) (storage : Storage.t) :
  let out := Server.postStringsHandler toLowerCase sha256 value now storage in
  match value with
  | JSString (c :: s) =>
      (is_Some (Storage.get (sha256 (c :: s)) storage) →
       out = (storage, Response 409 (JsonError "String already exists in the system")))
      ∧ (Storage.get (sha256 (c :: s)) storage = None →
         out = (Storage.mk (Storage.strings storage
                            ++ [(sha256 (c :: s), record (c :: s) now)]),
                Response 201 (JsonStored (record (c :: s) now))))
  | _ => out = (storage, Response 422 (JsonError Server.invalidDataType))
  end.
Proof.
  destruct value as [|[|c s]|]; [done..| |done]. simpl. split.
  - intros Hold. by rewrite create_old.
  - intros Hnew. by rewrite create_new.
Qed.

(** X14. [DELETE /strings/:value] on a reachable store: without a record
    for the digest of the value the answer is 404 and the store is
    untouched; with one the answer is 204 without a body, the record is
    gone and the other records stay. *)
Theorem delete_strings_outcomes (value : jsstring) (storage : Storage.t) :
  reachable toLowerCase sha256 storage →
  let out := Server.deleteStringsValueHandler toLowerCase sha256 value storage in
  (Storage.get (sha256 value) storage = None →
   out = (storage, Reply 404 (Json (JsonError "String does not exist in the system"))))
  ∧ (is_Some (Storage.get (sha256 value) storage) →
     out.2 = Reply 204 Empty
     ∧ Storage.get (sha256 value) out.1 = None
     ∧ ∀ h, h ≠ sha256 value → Storage.get h out.1 = Storage.get h storage).
Proof.
  intros [_ Hkeys]%reachable_keeps.
  unfold Server.deleteStringsValueHandler, Storage.delete, Storage.get. simpl. split.
  - intros Hnone. rewrite (proj2 (map_has_false _ _) Hnone).
    rewrite map_delete_absent by done. by destruct storage.
  - intros Hsome. rewrite (proj2 (map_has_get _ _) Hsome). simpl. split_and!.
    + done.
    + rewrite map_get_delete by done. by rewrite decide_True.
    + intros h Hne. rewrite map_get_delete by done. by rewrite decide_False.
Qed.

(** X15. End to end, for a non-empty value no record has the digest of:
    POST /strings answers 201 with the new record; GET /strings/value then
    answers 200 with the same record; DELETE /strings/value answers 204 and
    gives back the store from before the POST, on which GET /strings/value
    answers 404. *)
Theorem post_get_delete_get (value now : jsstring) (query : list (jsstring * jsstring))
    (other : jsvalue) (storage : Storage.t) :
  value ≠ [] →
  Storage.get (sha256 value) storage = None →
  let serve := Server.serve toLowerCase sha256 in
  let stored := record value now in
  let storage1 := Storage.mk (Storage.strings storage ++ [(sha256 value, stored)]) in
  serve (Request POST [js "strings"] query) (JSString value) now storage
  = Some (storage1, Reply 201 (Json (JsonStored stored)))
  ∧ serve (Request GET [js "strings"; value] query) other now storage1
    = Some (storage1, Reply 200 (Json (JsonStored stored)))
  ∧ serve (Request DELETE [js "strings"; value] query) other now storage1
    = Some (storage, Reply 204 Empty)
  ∧ serve (Request GET [js "strings"; value] query) other now storage
    = Some (storage, Reply 404 (Json (JsonError "String does not exist in the system"))).
Proof.
  intros Hne Hnew serve stored storage1.
  assert (Hcreate : create value now storage = (storage1, inr stored))
    by (by apply create_new).
  assert (Hstored : Storage.get (sha256 value) storage1 = Some stored).
  { unfold Storage.get, storage1. simpl.
    rewrite <- map_set_new by (by apply map_get_None).
    rewrite map_get_set. by rewrite decide_True. }
  assert (Hdelete : Storage.delete (sha256 value) storage1 = (storage, true)).
  { pose proof (create_then_delete_store storage value now Hnew) as Hback.
    by rewrite Hcreate in Hback. }
  destruct value as [|c s]; [done|].
  assert (Hpost : Router.dispatch Router.routes (Request POST [js "strings"] query)
                  = Some (postStrings, [])) by done.
  assert (Hget : Router.dispatch Router.routes (Request GET [js "strings"; c :: s] query)
                 = Some (getStringsValue, [("value"%string, c :: s)])) by done.
  assert (Hdel : Router.dispatch Router.routes (Request DELETE [js "strings"; c :: s] query)
                 = Some (deleteStringsValue, [("value"%string, c :: s)])) by done.
  unfold serve, Server.serve. rewrite Hpost, Hget, Hdel.
  cbn [Server.param bool_decide decide_rel]. rewrite !bool_decide_eq_true_2 by done.
  unfold Server.postStringsHandler, Router.getStringsValueHandler,
    Server.deleteStringsValueHandler, Server.sent.
  cbn [Props.sha256_hash Storage.computeProperties].
  rewrite Hcreate, Hstored, Hdelete, Hnew. done.
Qed.


(** ** The list endpoint *)

Lemma query_loop_filter (filters : QueryFilters.t) (values results : list Stored.t) :
  fold_left
    (λ results stored,
       if QueryStorage.matchFlag filters stored then results ++ [stored] else results)
    values results
  = results ++ filter (λ stored, QueryStorage.matchFlag filters stored = true) values.
Proof.
  revert results. induction values as [|stored values IH]; intros results; simpl.
  - by rewrite filter_nil, app_nil_r.
  - rewrite IH, filter_cons.
    destruct (QueryStorage.matchFlag filters stored); case_decide; try done.
    by rewrite <- app_assoc.
Qed.

Lemma query_list_data (filters : QueryFilters.t) (st : Storage.t) :
  QueryListing.data (QueryStorage.list filters st)
  = filter (λ stored, QueryStorage.matchFlag filters stored = true)
      (JSMap.values (Storage.strings st)).
Proof. unfold QueryStorage.list. simpl. by rewrite query_loop_filter. Qed.

Lemma strict_eqb_finite (a b : Z) :
  AnyNumber.eqb (Finite a) (Finite b) = JSNumber.eqb (Num a) (Num b).
Proof.
  simpl. unfold JSNumber.eqb.
  destruct (Z.eqb_spec a b) as [->|Hne].
  - by rewrite bool_decide_eq_true_2.
  - rewrite bool_decide_eq_false_2; [done|]. by intros [= ?].
Qed.

(** On filter values of the typed kind the two embeddings of [list] compute
    the same flag. *)
Lemma matchFlag_typed (qf : QueryFilters.t) (f : Filters.t) (stored : Stored.t) :
  typedFilters qf = Some f →
  QueryStorage.matchFlag qf stored = Storage.matchFlag f stored.
Proof.
  destruct qf as [pal lo hi words char]. unfold typedFilters, typedFilter, typedNumber.
  cbn [QueryFilters.min_length QueryFilters.max_length QueryFilters.word_count
       QueryFilters.is_palindrome QueryFilters.contains_character].
  destruct lo as [[a| | |]|], hi as [[b| | |]|], words as [[w| | |]|];
    intros [= <-]; unfold QueryStorage.matchFlag, Storage.matchFlag;
    cbn [QueryFilters.min_length QueryFilters.max_length QueryFilters.word_count
         QueryFilters.is_palindrome QueryFilters.contains_character
         Filters.min_length Filters.max_length Filters.word_count
         Filters.is_palindrome Filters.contains_character];
    rewrite ?strict_eqb_finite; reflexivity.
Qed.

(** Each field of the filter set of the list endpoint, by its parameter. *)
Lemma queryFilters_fields (query : list (jsstring * jsstring)) :
  let number name :=
    match JSMap.get (js name) query with
    | Some (c :: s) => Some (AnyNumber.parseInt (c :: s))
    | _ => None
    end in
  let filters := Server.queryFilters query in
  QueryFilters.is_palindrome filters
  = (λ s, bool_decide (s = js "true")) <$> JSMap.get (js "is_palindrome") query
  ∧ QueryFilters.min_length filters = number "min_length"%string
  ∧ QueryFilters.max_length filters = number "max_length"%string
  ∧ QueryFilters.word_count filters = number "word_count"%string
  ∧ QueryFilters.contains_character filters
    = match JSMap.get (js "contains_character") query with
      | Some (c :: s) => Some (c :: s)
      | _ => None
      end.
Proof.
  unfold Server.queryFilters.
  destruct (JSMap.get (js "is_palindrome") query) as [pal|],
    (JSMap.get (js "min_length") query) as [[|? ?]|],
    (JSMap.get (js "max_length") query) as [[|? ?]|],
    (JSMap.get (js "word_count") query) as [[|? ?]|],
    (JSMap.get (js "contains_character") query) as [[|? ?]|];
    by split_and!.
Qed.

Lemma handler_accepts (query : list (jsstring * jsstring)) (storage : Storage.t) :
  (∀ c, JSMap.get (js "contains_character") query = Some c → (length c ≤ 1)%nat) →
  Server.getStringsHandler query storage
  = Reply 200 (JsonListing (QueryStorage.list (Server.queryFilters query) storage)).
Proof.
  intros Hchar. unfold Server.getStringsHandler.
  destruct (JSMap.get (js "contains_character") query) as [[|u [|v c]]|]; try done.
  specialize (Hchar _ eq_refl). simpl in Hchar. lia.
Qed.

(** X17. [GET /strings] checks [contains_character] only: a value of two
    code units or more, a single character outside the basic plane
    included, is answered 400; a missing or empty one sets no filter, a
    value of one code unit is the filter, and the answer is then 200 with
    the listing for the filters built from the query. *)
Theorem list_endpoint_validation (query : list (jsstring * jsstring)) (storage : Storage.t) :
  let res := Server.getStringsHandler query storage in
  let filters := Server.queryFilters query in
  match JSMap.get (js "contains_character") query with
  | Some (u :: v :: c) =>
      res = Reply 400 (Json (JsonError "Invalid query parameter values or types"))
  | Some [u] =>
      res = Reply 200 (JsonListing (QueryStorage.list filters storage))
      ∧ QueryFilters.contains_character filters = Some [u]
  | Some [] | None =>
      res = Reply 200 (JsonListing (QueryStorage.list filters storage))
      ∧ QueryFilters.contains_character filters = None
  end.
Proof.
  unfold Server.getStringsHandler, Server.queryFilters.
  destruct (JSMap.get (js "contains_character") query) as [[|u [|v c]]|];
    [split; [done|]|split; [done|]|done|split; [done|]]; cbn [Server.truthy];
    repeat match goal with |- context [Server.truthy ?p] => destruct (Server.truthy p) end;
    by destruct (JSMap.get (js "is_palindrome") query).
Qed.

(** X18. [GET /strings] with numbers [parseInt] reads as numbers: when the
    filters built from the query hold no NaN and [contains_character] has
    at most one code unit, the answer is 200 and lists, in the order of the
    store, the records that satisfy every filter; [count] is their
    number. *)
Theorem list_endpoint_typed (query : list (jsstring * jsstring)) (storage : Storage.t)
    (filters : Filters.t) :
  typedFilters (Server.queryFilters query) = Some filters →
  (∀ c, JSMap.get (js "contains_character") query = Some c → (length c ≤ 1)%nat) →
  ∃ result,
    Server.getStringsHandler query storage = Reply 200 (JsonListing result)
    ∧ QueryListing.data result
      = filter (satisfies filters) (JSMap.values (Storage.strings storage))
    ∧ QueryListing.count result = Z.of_nat (length (QueryListing.data result))
    ∧ QueryListing.filters_applied result = Server.queryFilters query.
Proof.
  intros Htyped Hchar. eexists. split; [by apply handler_accepts|].
  split_and!; [|done..].
  rewrite query_list_data. apply list_filter_iff. intros stored.
  rewrite (matchFlag_typed _ _ _ Htyped). apply matchFlag_satisfies.
Qed.

(** X19. A number [parseInt] cannot read: when the answer of [GET /strings]
    is a listing and a non-empty parameter [s] is read as NaN, then as
    [min_length] or [max_length] it filters nothing (the listing is the
    one without that filter), and as [word_count] it matches no record. *)
Theorem list_endpoint_unparsable_numbers (query : list (jsstring * jsstring))
    (storage : Storage.t) (s : jsstring) :
  (∀ c, JSMap.get (js "contains_character") query = Some c → (length c ≤ 1)%nat) →
  s ≠ [] →
  AnyNumber.parseInt s = NaN →
  let filters := Server.queryFilters query in
  let pal := QueryFilters.is_palindrome filters in
  let lo := QueryFilters.min_length filters in
  let hi := QueryFilters.max_length filters in
  let words := QueryFilters.word_count filters in
  let char := QueryFilters.contains_character filters in
  let listed f := QueryListing.data (QueryStorage.list f storage) in
  Server.getStringsHandler query storage
  = Reply 200 (JsonListing (QueryStorage.list filters storage))
  ∧ (JSMap.get (js "min_length") query = Some s →
     listed filters = listed (QueryFilters.mk pal None hi words char))
  ∧ (JSMap.get (js "max_length") query = Some s →
     listed filters = listed (QueryFilters.mk pal lo None words char))
  ∧ (JSMap.get (js "word_count") query = Some s → listed filters = []).
Proof.
  intros Hchar Hne Hnan filters pal lo hi words char listed.
  split; [by apply handler_accepts|].
  assert (Hfields : filters = QueryFilters.mk pal lo hi words char) by (by destruct filters).
  destruct (queryFilters_fields query) as (_ & Hmin & Hmax & Hcount & _).
  fold filters in Hmin, Hmax, Hcount. fold lo in Hmin. fold hi in Hmax. fold words in Hcount.
  assert (Hlo : JSMap.get (js "min_length") query = Some s → lo = Some NaN).
  { intros Hs. rewrite Hmin, Hs. destruct s; [done|]. by rewrite Hnan. }
  assert (Hhi : JSMap.get (js "max_length") query = Some s → hi = Some NaN).
  { intros Hs. rewrite Hmax, Hs. destruct s; [done|]. by rewrite Hnan. }
  assert (Hwords : JSMap.get (js "word_count") query = Some s → words = Some NaN).
  { intros Hs. rewrite Hcount, Hs. destruct s; [done|]. by rewrite Hnan. }
  unfold listed. rewrite Hfields, !query_list_data. split_and!.
  - intros ->%Hlo. apply list_filter_iff. intros stored.
    unfold QueryStorage.matchFlag. cbn [QueryFilters.min_length QueryFilters.max_length
      QueryFilters.word_count QueryFilters.is_palindrome QueryFilters.contains_character
      AnyNumber.ltb]. done.
  - intros ->%Hhi. apply list_filter_iff. intros stored.
    unfold QueryStorage.matchFlag. cbn [QueryFilters.min_length QueryFilters.max_length
      QueryFilters.word_count QueryFilters.is_palindrome QueryFilters.contains_character
      AnyNumber.ltb]. done.
  - intros ->%Hwords. apply filter_none. intros stored.
    unfold QueryStorage.matchFlag. cbn [QueryFilters.min_length QueryFilters.max_length
      QueryFilters.word_count QueryFilters.is_palindrome QueryFilters.contains_character
      AnyNumber.eqb negb].
    destruct char; repeat match goal with |- context [if ?t then _ else _] => destruct t end;
      done.
Qed.

End FurtherProperties.

(** ** Instances *)

(** The store after "racecar" was created, under the ASCII instance of
    [toLowerCase] and the identity as a stand-in for the digest. *)
Local Abbreviation racecarStore :=
  ((Storage.create asciiLowerCase (λ value, value)
      (js "racecar") (js "2025-10-20T10:00:00.000Z") Storage.new).1).

Lemma racecarStore_reachable : reachable asciiLowerCase (λ value, value) racecarStore.
Proof. apply rtc_once. constructor. Defined.

Lemma stored_records_computed_witness :
  reachable asciiLowerCase (λ value, value) racecarStore
  ∧ Forall (λ entry, entry.1 = Stored.value entry.2) (Storage.strings racecarStore).
Proof.
  split; [exact racecarStore_reachable|].
  eapply Forall_impl;
    [exact (stored_records_computed asciiLowerCase (λ value, value) _
              racecarStore_reachable)|].
  intros entry H. exact (proj1 H).
Defined.

Lemma delete_removes_witness :
  reachable asciiLowerCase (λ value, value) racecarStore
  ∧ Storage.get (js "racecar") (Storage.delete (js "racecar") racecarStore).1 = None.
Proof.
  split; [exact racecarStore_reachable|].
  exact (proj1 (proj2 (delete_removes asciiLowerCase (λ value, value) _ (js "racecar")
                         racecarStore_reachable))).
Defined.

Lemma delete_then_create_witness :
  reachable asciiLowerCase (λ value, value) racecarStore
  ∧ (Storage.create asciiLowerCase (λ value, value) (js "racecar")
       (js "2025-10-20T11:00:00.000Z")
       (Storage.delete (js "racecar") racecarStore).1).2
    = inr {| Stored.id := js "racecar";
             Stored.value := js "racecar";
             Stored.properties :=
               Storage.computeProperties asciiLowerCase (λ value, value) (js "racecar");
             Stored.created_at := js "2025-10-20T11:00:00.000Z" |}.
Proof.
  split; [exact racecarStore_reachable|].
  exact (f_equal snd
           (delete_then_create asciiLowerCase (λ value, value) _ (js "racecar")
              (js "2025-10-20T11:00:00.000Z") racecarStore_reachable)).
Defined.

Lemma create_then_delete_witness :
  Storage.get (js "level") racecarStore = None
  ∧ Storage.delete (js "level")
      (Storage.create asciiLowerCase (λ value, value) (js "level")
         (js "2025-10-20T11:00:00.000Z") racecarStore).1
    = (racecarStore, true).
Proof.
  split; [reflexivity|].
  exact (create_then_delete asciiLowerCase (λ value, value) racecarStore (js "level")
           (js "2025-10-20T11:00:00.000Z") eq_refl).
Defined.

Lemma list_after_create_witness :
  Storage.get (js "level") racecarStore = None
  ∧ data (Storage.list Filters.empty
            (Storage.create asciiLowerCase (λ value, value) (js "level")
               (js "2025-10-20T11:00:00.000Z") racecarStore).1)
    = data (Storage.list Filters.empty racecarStore)
      ++ filter (satisfies Filters.empty)
           [{| Stored.id := js "level";
               Stored.value := js "level";
               Stored.properties :=
                 Storage.computeProperties asciiLowerCase (λ value, value) (js "level");
               Stored.created_at := js "2025-10-20T11:00:00.000Z" |}].
Proof.
  split; [reflexivity|].
  exact (list_after_create asciiLowerCase (λ value, value) racecarStore (js "level")
           (js "2025-10-20T11:00:00.000Z") Filters.empty eq_refl).
Defined.

Lemma listed_records_describe_values_witness :
  let stored :=
    {| Stored.id := js "racecar";
       Stored.value := js "racecar";
       Stored.properties :=
         Storage.computeProperties asciiLowerCase (λ value, value) (js "racecar");
       Stored.created_at := js "2025-10-20T10:00:00.000Z" |} in
  reachable asciiLowerCase (λ value, value) racecarStore
  ∧ stored ∈ data (Storage.list Filters.empty racecarStore)
  ∧ Storage.get (js "racecar") racecarStore = Some stored.
Proof.
  intros stored.
  assert (Hin : stored ∈ data (Storage.list Filters.empty racecarStore))
    by apply list_elem_of_here.
  split; [exact racecarStore_reachable|]. split; [exact Hin|].
  exact (proj1 (listed_records_describe_values asciiLowerCase (λ value, value)
                  racecarStore Filters.empty stored racecarStore_reachable Hin)).
Defined.

Lemma interpret_result_shape_witness :
  Interpreter.parseNaturalQuery asciiLowerCase (js "strings longer than 5")
  = inr (Some (Filters.mk None (Some (Num 6)) None None None))
  ∧ Filters.mk None (Some (Num 6)) None None None ≠ Filters.empty.
Proof.
  assert (Hparsed :
    Interpreter.parseNaturalQuery asciiLowerCase (js "strings longer than 5")
    = inr (Some (Filters.mk None (Some (Num 6)) None None None))) by reflexivity.
  split; [exact Hparsed|].
  exact (proj1 (interpret_result_shape asciiLowerCase _ _ Hparsed)).
Defined.

Lemma delete_strings_outcomes_witness :
  reachable asciiLowerCase (λ value, value) racecarStore
  ∧ (Server.deleteStringsValueHandler asciiLowerCase (λ value, value)
       (js "level") racecarStore)
    = (racecarStore, Reply 404 (Json (JsonError "String does not exist in the system"))).
Proof.
  split; [exact racecarStore_reachable|].
  exact (proj1 (delete_strings_outcomes asciiLowerCase (λ value, value) (js "level")
                  racecarStore racecarStore_reachable) eq_refl).
Defined.

Lemma post_get_delete_get_witness :
  js "level" ≠ []
  ∧ Storage.get (js "level") racecarStore = None
  ∧ Server.serve asciiLowerCase (λ value, value)
      (Request GET [js "strings"; js "level"] []) JSUndefined (js "") racecarStore
    = Some (racecarStore,
            Reply 404 (Json (JsonError "String does not exist in the system"))).
Proof.
  assert (Hne : js "level" ≠ []) by discriminate.
  split; [exact Hne|]. split; [reflexivity|].
  exact (proj2 (proj2 (proj2
           (post_get_delete_get asciiLowerCase (λ value, value) (js "level") (js "")
              [] JSUndefined racecarStore Hne eq_refl)))).
Defined.

Lemma list_endpoint_typed_witness :
  typedFilters (Server.queryFilters [(js "min_length", js "3")])
  = Some (Filters.mk None (Some (Num 3)) None None None)
  ∧ ∃ result,
      Server.getStringsHandler [(js "min_length", js "3")] racecarStore
      = Reply 200 (JsonListing result).
Proof.
  assert (Hchar : ∀ c,
    JSMap.get (js "contains_character") [(js "min_length", js "3")] = Some c →
    (length c ≤ 1)%nat) by (intros c H; discriminate H).
  split; [reflexivity|].
  destruct (list_endpoint_typed [(js "min_length", js "3")] racecarStore
              (Filters.mk None (Some (Num 3)) None None None) eq_refl Hchar)
    as (result & Hres & _).
  exists result. exact Hres.
Defined.

Lemma list_endpoint_unparsable_numbers_witness :
  js "abc" ≠ []
  ∧ AnyNumber.parseInt (js "abc") = NaN
  ∧ QueryListing.data
      (QueryStorage.list (Server.queryFilters [(js "word_count", js "abc")]) racecarStore)
    = [].
Proof.
  assert (Hchar : ∀ c,
    JSMap.get (js "contains_character") [(js "word_count", js "abc")] = Some c →
    (length c ≤ 1)%nat) by (intros c H; discriminate H).
  assert (Hne : js "abc" ≠ []) by discriminate.
  split; [exact Hne|]. split; [reflexivity|].
  exact (proj2 (proj2 (proj2
           (list_endpoint_unparsable_numbers [(js "word_count", js "abc")] racecarStore
              (js "abc") Hchar Hne eq_refl))) eq_refl).
Defined.
